(** * IPO screener: indicators, IPO table and screener rows

    A shallow embedding of the computational part of the screener
    ([indicators.py], [data_fetcher.py] and the table construction of
    [app.py]) together with the properties its specification states.

    Conventions of the embedding.
    - A Python [float] is the rational it denotes, or NaN ([pyfloat]);
      infinities are not modelled, NaN is, because pandas uses it as its
      missing marker. The comparisons of floats are exact. The quotient,
      difference and product of the percentage formulas are taken without
      rounding. The values of pandas' rolling mean, which come out of a
      binary64 algorithm of pandas, are a parameter of the embedding
      ([RollingMean]): nothing is assumed about how close to the mean they
      are.
    - Code that can raise returns a [result]; the exception classes that
      matter are listed in [exn].
    - A pandas [DataFrame] of prices is its index and a finite map from
      column names to columns of cells: the order of the columns is not
      represented, and two tables are equal when they have the same index
      and the same cells under every column name. The IPO table, whose
      columns are fixed, is a list of records.
    - pandas, numpy and builtin functions are modelled by the definitions of
      module [Py], from their documented behaviour. *)

From Stdlib Require Import QArith Qcanon Ascii.
From stdpp Require Import base numbers list strings gmap sorting pretty.

#[local] Set Warnings "-register-all".
Local Open Scope string_scope.
Local Open Scope Z_scope.

(** ** Exceptions *)

Inductive exn : Set :=
| TypeError | ValueError | OverflowError | ZeroDivisionError
| KeyError | IndexError | DataError.

Inductive result (A : Type) : Type :=
| Ok (a : A)
| Raise (e : exn).
Arguments Ok {A} a.
Arguments Raise {A} e.

#[global] Instance result_ret : MRet result := @Ok.
#[global] Instance result_bind : MBind result := fun A B f m =>
  match m with
  | Ok a => f a
  | Raise e => Raise e
  end.

Definition is_ok {A} (r : result A) : bool :=
  match r with Ok _ => true | Raise _ => false end.

#[global] Instance exn_eq_dec : EqDecision exn.
Proof. solve_decision. Defined.

(** ** Python and pandas values *)

Module Py.

(** A Python float: the rational it denotes, or NaN. *)
Inductive pyfloat : Type :=
| Fin (q : Qc)
| NaN.

#[global] Instance pyfloat_eq_dec : EqDecision pyfloat.
Proof. solve_decision. Defined.

(** What a cell of a price table holds, and the arguments the program
    passes to its coercions: the missing markers [None], [pd.NA] and
    [pd.NaT], numbers, the two pandas containers the code tests for, and an
    object that has no [__float__] and is no sequence ([VObject]: a date, a
    dict). Strings, lists and numpy arrays are not represented: a statement
    about every [value] says nothing of them. *)
Inductive value : Type :=
| VNone
| VNA
| VNaT
| VFloat (x : pyfloat)
| VInt (n : Z)
| VBool (b : bool)
| VObject
| VSeries (xs : list value)
| VIndex (xs : list value).

(** Float arithmetic and comparison. NaN propagates through arithmetic and
    makes every ordered comparison false; true division by zero raises.
    Comparison is exact; difference, product and quotient are taken
    without their rounding. *)
Definition fsub (x y : pyfloat) : pyfloat :=
  match x, y with
  | Fin a, Fin b => Fin (a - b)
  | _, _ => NaN
  end.

Definition fmul (x y : pyfloat) : pyfloat :=
  match x, y with
  | Fin a, Fin b => Fin (a * b)
  | _, _ => NaN
  end.

Definition fdiv (x y : pyfloat) : result pyfloat :=
  match y with
  | Fin b =>
      if decide (b = 0%Qc) then Raise ZeroDivisionError
      else match x with
           | Fin a => Ok (Fin (a / b))
           | NaN => Ok NaN
           end
  | NaN => Ok NaN
  end.

Definition fgt (x y : pyfloat) : bool :=
  match x, y with
  | Fin a, Fin b => bool_decide (b < a)%Qc
  | _, _ => false
  end.

Definition flt (x y : pyfloat) : bool := fgt y x.

Definition feq (x y : pyfloat) : bool :=
  match x, y with
  | Fin a, Fin b => bool_decide (a = b)
  | _, _ => false
  end.

(** [x != 0] *)
Definition fnonzero (x : pyfloat) : bool := negb (feq x (Fin 0)).

(** The first integer too large for [float(int)]: conversion rounds to the
    nearest double and overflows from [2^1024 - 2^970] on. *)
Definition float_int_limit : Z := 2 ^ 1024 - 2 ^ 970.

(** [float(v)]. A Series of length one converts through its element, any
    other container and the missing markers are a [TypeError]. *)
Fixpoint py_float (v : value) : result pyfloat :=
  match v with
  | VFloat x => Ok x
  | VInt n =>
      if Z.abs n <? float_int_limit then Ok (Fin (Qc_of_Z n))
      else Raise OverflowError
  | VBool b => Ok (Fin (if b then 1%Qc else 0%Qc))
  | VSeries [x] => py_float x
  | VSeries _ | VIndex _ => Raise TypeError
  | VNone | VNA | VNaT | VObject => Raise TypeError
  end.

(** The null test pandas applies to one scalar or to one element of an
    object array. *)
Definition checknull (v : value) : bool :=
  match v with
  | VNone | VNA | VNaT | VFloat NaN => true
  | _ => false
  end.

(** What [pd.isna] returns: a bool for a scalar, a boolean Series for a
    Series, a boolean numpy array for an Index. *)
Inductive isna_result : Type :=
| IsnaBool (b : bool)
| IsnaSeries (bs : list bool)
| IsnaArray (bs : list bool).

Definition pd_isna (v : value) : isna_result :=
  match v with
  | VSeries xs => IsnaSeries (map checknull xs)
  | VIndex xs => IsnaArray (map checknull xs)
  | _ => IsnaBool (checknull v)
  end.

(** [bool(r)] for a result of [pd.isna] that is not a Series. Only an
    array of one element has a truth value: for an array of several
    elements it is ambiguous, and so it is for an empty array (numpy 2.2
    and later; earlier versions answered [False] with a deprecation
    warning). *)
Definition py_bool (r : isna_result) : result bool :=
  match r with
  | IsnaBool b => Ok b
  | IsnaArray [b] => Ok b
  | IsnaArray _ => Raise ValueError
  | IsnaSeries _ => Raise ValueError
  end.

(** [Series.all()] *)
Definition all (bs : list bool) : bool := forallb id bs.

(** [v.iloc[-1]] and [v[-1]] on a container that is not empty. *)
Definition last_item (xs : list value) : value := List.last xs VNone.

End Py.

Import Py.

(** ** indicators.py *)

Module Indicators.

Definition _is_na_scalar (v : value) : result bool :=
  match pd_isna v with
  | IsnaSeries bs => Ok (Py.all bs)
  | r => py_bool r
  end.

(** [try: return float(v) / except (TypeError, ValueError): return None] *)
Definition float_or_none (v : value) : result (option pyfloat) :=
  match py_float v with
  | Ok x => Ok (Some x)
  | Raise TypeError | Raise ValueError => Ok None
  | Raise e => Raise e
  end.

Definition _to_scalar (v : value) : result (option pyfloat) :=
  na ← _is_na_scalar v;
  if (na : bool) then Ok None
  else match v with
       | VSeries xs | VIndex xs =>
           if (length xs =? 0)%nat then Ok None
           else
             let scalar := last_item xs in
             na' ← _is_na_scalar scalar;
             if (na' : bool) then Ok None else float_or_none scalar
       | _ => float_or_none v
       end.

(** A price table: the index (one entry per bar) and the columns by name,
    each holding one cell per index entry. The position of a column among
    the columns is not represented. *)
Record DataFrame : Type := {
  index : list Z;
  columns : gmap string (list value)
}.

(** [len(df)] *)
Definition df_len (df : DataFrame) : nat := length (index df).

(** [df.empty]: some axis has length zero. *)
Definition df_empty (df : DataFrame) : bool :=
  (df_len df =? 0)%nat || bool_decide (columns df = ∅).

(** [df.get(col)] *)
Definition df_get (df : DataFrame) (col : string) : option (list value) :=
  columns df !! col.

(** [df[col] = cells] *)
Definition df_set (df : DataFrame) (col : string) (cells : list value)
  : DataFrame :=
  {| index := index df; columns := <[col := cells]> (columns df) |}.

(** [df.iloc[-1]]: the last cell of every column, keyed by column name. *)
Definition iloc_last (df : DataFrame) : gmap string value :=
  last_item <$> columns df.

(** [row.get(key)], [None] when the key is absent. *)
Definition series_get (row : gmap string value) (key : string) : value :=
  default VNone (row !! key).

(** The float64 reading of a cell that a rolling aggregation works on;
    a column with a cell that has none cannot be aggregated. *)
Definition float64_cell (v : value) : result pyfloat :=
  match v with
  | VFloat x => Ok x
  | VInt _ | VBool _ => py_float v
  | VNone => Ok NaN
  | _ => Raise DataError
  end.

Fixpoint float64_cells (vs : list value) : result (list pyfloat) :=
  match vs with
  | [] => Ok []
  | v :: vs' =>
      x ← float64_cell v;
      xs ← float64_cells vs';
      Ok (x :: xs)
  end.

(** The bars a window of [window] bars ending at position [i] covers. *)
Definition window_cells (window i : nat) (xs : list pyfloat) : list pyfloat :=
  drop (S i - window) (take (S i) xs).

(** [f"SMA_{window}"] *)
Definition sma_col (window : Z) : string := "SMA_" +:+ pretty window.

(** The observations of a window: its cells that are not NaN. *)
Definition observations (xs : list pyfloat) : list Qc :=
  omap (fun x => match x with Fin q => Some q | NaN => None end) xs.

Definition Qc_sum (qs : list Qc) : Qc := foldr Qcplus 0%Qc qs.

(** The number pandas' rolling mean holds at position [i] of a float64
    series for a window of [window] bars, when the window has enough
    observations. pandas computes it in binary64 from running sums over
    the series: it is near the arithmetic mean of the observations but it
    is not, in general, that mean nor the double nearest to it, and the
    source does not determine it. It is a parameter of the embedding. *)
Class RollingMean := window_mean : nat → nat → list pyfloat → Qc.

(** One such function, for the examples: the arithmetic mean of the
    observations of the window, without rounding. *)
Definition exact_mean : RollingMean := fun window i xs =>
  let obs := observations (window_cells window i xs) in
  (Qc_sum obs / Qc_of_Z (Z.of_nat (length obs)))%Qc.

Section RollingMeans.

Context {RM : RollingMean}.

(** One value of [rolling(window, min_periods).mean()]: a number when the
    window has at least [min_periods] observations, NaN when it has
    not. *)
Definition roll_mean_at (window min_periods i : nat) (xs : list pyfloat)
  : pyfloat :=
  let obs := observations (window_cells window i xs) in
  if (min_periods <=? length obs)%nat && (0 <? length obs)%nat
  then Fin (window_mean window i xs)
  else NaN.

Definition rolling_mean (window min_periods : nat) (xs : list pyfloat)
  : list pyfloat :=
  map (fun i => roll_mean_at window min_periods i xs) (seq 0 (length xs)).

(** [closes.rolling(window=window, min_periods=window).mean()] *)
Definition rolling_mean_series (window : Z) (closes : list value)
  : result (list value) :=
  xs ← float64_cells closes;
  Ok (VFloat <$> rolling_mean (Z.to_nat window) (Z.to_nat window) xs).


(** The loop of [calculate_moving_averages] over the windows. *)
Fixpoint sma_loop (closes : list value) (windows : list Z) (df : DataFrame)
  : result DataFrame :=
  match windows with
  | [] => Ok df
  | window :: rest =>
      if window <=? 0 then sma_loop closes rest df
      else
        let col := sma_col window in
        if Z.of_nat (df_len df) >=? window then
          sma ← rolling_mean_series window closes;
          sma_loop closes rest (df_set df col sma)
        else
          sma_loop closes rest (df_set df col (replicate (df_len df) VNA))
  end.

Definition calculate_moving_averages (df : DataFrame) (windows : list Z)
  : result DataFrame :=
  if df_empty df then Ok df
  else match df_get df "Close" with
       | None => Ok df
       | Some closes => sma_loop closes windows df
       end.

End RollingMeans.

(** ['above' if close_scalar > ma_scalar else 'below'], ['n/a'] when one of
    the two is [None]. *)
Definition classify (close_scalar ma_scalar : option pyfloat) : string :=
  match close_scalar, ma_scalar with
  | Some c, Some m => if fgt c m then "above" else "below"
  | _, _ => "n/a"
  end.

(** The loop of [get_ma_signals] over the windows. *)
Fixpoint signals_loop (latest : gmap string value) (close : value)
    (windows : list Z) (signals : gmap Z string) : result (gmap Z string) :=
  match windows with
  | [] => Ok signals
  | window :: rest =>
      let col := sma_col window in
      let ma_value := series_get latest col in
      close_scalar ← _to_scalar close;
      ma_scalar ← _to_scalar ma_value;
      signals_loop latest close rest
        (<[window := classify close_scalar ma_scalar]> signals)
  end.

Definition get_ma_signals (df : DataFrame) (windows : list Z)
  : result (gmap Z string * gmap string value) :=
  if df_empty df then Ok (∅, ∅)
  else
    let latest := iloc_last df in
    let close := series_get latest "Close" in
    signals ← signals_loop latest close windows ∅;
    Ok (signals, latest).

End Indicators.

Import Indicators.

(** ** data_fetcher.py *)

Module DataFetcher.

(** One row of the IPO table. Dates are day numbers; [None] is a missing
    date ([NaT] once the column went through [pd.to_datetime]). *)
Record IpoRecord : Type := {
  ticker : string;
  company : string;
  exchange : string;
  ipo_date : option Z
}.

#[global] Instance IpoRecord_eq_dec : EqDecision IpoRecord.
Proof. solve_decision. Defined.

(** The [date] field of a calendar row: absent or empty, or a text together
    with the day [pd.to_datetime] reads from it ([None] when it raises). *)
Inductive raw_date : Type :=
| DateAbsent
| DateText (day : option Z).

(** One row of the Finnhub IPO calendar; a field that is absent is [None]. *)
Record CalendarRow : Type := {
  symbol : option string;
  name : option string;
  row_exchange : option string;
  date : raw_date
}.

(** [str.upper()], on ASCII text. *)
Definition upper_ascii (c : ascii) : ascii :=
  let n := nat_of_ascii c in
  if (97 <=? n)%nat && (n <=? 122)%nat then ascii_of_nat (n - 32) else c.

Fixpoint upper (s : string) : string :=
  match s with
  | EmptyString => EmptyString
  | String c s' => String (upper_ascii c) (upper s')
  end.

(** [sub in s] *)
Fixpoint contains (s sub : string) : bool :=
  String.prefix sub s ||
  match s with
  | EmptyString => false
  | String _ s' => contains s' sub
  end.

(** [o or d] for an optional string. *)
Definition str_or (o : option string) (d : string) : string :=
  match o with
  | Some s => if decide (s = "") then d else s
  | None => d
  end.

Definition us_exchanges : list string := ["NASDAQ"; "NYSE"; "AMEX"; "BATS"].

(** The loop over the calendar rows; it raises when a date does not parse. *)
Fixpoint calendar_records (calendar : list CalendarRow)
    (records : list IpoRecord) : result (list IpoRecord) :=
  match calendar with
  | [] => Ok records
  | row :: rest =>
      let sym := str_or (symbol row) "" in
      if decide (sym = "") then calendar_records rest records
      else
        let exch := upper (str_or (row_exchange row) "") in
        if negb (existsb (contains exch) us_exchanges)
        then calendar_records rest records
        else
          d ← match date row with
              | DateAbsent => Ok None
              | DateText (Some day) => Ok (Some day)
              | DateText None => Raise ValueError
              end;
          calendar_records rest
            (records ++ [ {| ticker := upper sym;
                             company := str_or (name row) (upper sym);
                             exchange := exch;
                             ipo_date := d |} ])
  end.

Definition demo_data (today : Z) : list IpoRecord :=
  [ {| ticker := "ARM"; company := "Arm Holdings plc";
       exchange := "NASDAQ"; ipo_date := Some (today - 160) |};
    {| ticker := "KVYO"; company := "Klaviyo Inc.";
       exchange := "NYSE"; ipo_date := Some (today - 140) |};
    {| ticker := "CART"; company := "Maplebear Inc. (Instacart)";
       exchange := "NASDAQ"; ipo_date := Some (today - 135) |};
    {| ticker := "BIRK"; company := "Birkenstock Holding plc";
       exchange := "NYSE"; ipo_date := Some (today - 130) |};
    {| ticker := "SEMR"; company := "Semrush Holdings, Inc.";
       exchange := "NYSE"; ipo_date := Some (today - 320) |};
    {| ticker := "NUVL"; company := "Nuvalent, Inc.";
       exchange := "NASDAQ"; ipo_date := Some (today - 280) |} ].

(** The order of [sort_values("ipo_date")] on the dated records. *)
Definition date_le (r1 r2 : IpoRecord) : Prop :=
  default 0 (ipo_date r1) ≤ default 0 (ipo_date r2).

#[global] Instance date_le_dec : RelDecision date_le.
Proof. intros r1 r2. unfold date_le. apply _. Defined.

Definition dated (r : IpoRecord) : bool := bool_decide (is_Some (ipo_date r)).

(** [df.sort_values("ipo_date")], with the default [na_position="last"]:
    the dated records in ascending order, then the records without a date
    in their original order. Which of several records of one date comes
    first is left open by pandas; here the sort is a merge sort. *)
Definition sort_values (df : list IpoRecord) : list IpoRecord :=
  merge_sort date_le (List.filter dated df)
  ++ List.filter (fun r => negb (dated r)) df.

(** [df.drop_duplicates(subset=["ticker"], keep="last")] *)
Fixpoint drop_duplicates (df : list IpoRecord) : list IpoRecord :=
  match df with
  | [] => []
  | r :: rest =>
      if bool_decide (ticker r ∈ ticker <$> rest) then drop_duplicates rest
      else r :: drop_duplicates rest
  end.

(** [get_recent_ipos]. [finnhub] is the client when the package is
    installed: given the two ends of the date range it answers with the
    calendar or raises. *)
Definition get_recent_ipos (today : Z)
    (finnhub : option (Z → Z → result (list CalendarRow)))
    (days_back : Z) (api_key : option string) : list IpoRecord :=
  let start := today - days_back in
  let records :=
    match finnhub with
    | Some ipo_calendar =>
        if decide (str_or api_key "" = "") then []
        else match calendar ← ipo_calendar start today;
                   calendar_records calendar [] with
             | Ok records => records
             | Raise _ => []
             end
    | None => []
    end in
  let records :=
    match records with
    | [] => demo_data today
    | _ => records
    end in
  match records with
  | [] => records
  | _ => drop_duplicates (sort_values records)
  end.

(** [pd.DataFrame()] *)
Definition empty_frame : DataFrame := {| index := []; columns := ∅ |}.

(** [df.rename(columns={..., "Adj Close": "AdjClose", ...})]: every other
    entry of the mapping keeps its name. Column names are distinct in a
    table of the model, which the tables of the price source are. *)
Definition rename_columns (df : DataFrame) : DataFrame :=
  match columns df !! "Adj Close" with
  | Some cells =>
      {| index := index df;
         columns := <["AdjClose" := cells]> (delete "Adj Close" (columns df)) |}
  | None => df
  end.

(** The order of two bars by their index entry. *)
Definition by_index (a b : Z * nat) : Prop := a.1 ≤ b.1.

#[global] Instance by_index_dec : RelDecision by_index.
Proof. intros a b. unfold by_index. apply _. Defined.

(** The positions of the bars in ascending order of the index. The order
    among bars of one index entry is left open by pandas; here the sort is
    a merge sort. *)
Definition argsort (idx : list Z) : list nat :=
  (merge_sort by_index (zip idx (seq 0 (length idx)))).*2.

(** The cells of a column at the positions of an indexer. *)
Definition take_rows {A} (indexer : list nat) (col : list A) : list A :=
  omap (col !!.) indexer.

(** [df.sort_index(inplace=True)] *)
Definition sort_index (df : DataFrame) : DataFrame :=
  let indexer := argsort (index df) in
  {| index := take_rows indexer (index df);
     columns := take_rows indexer <$> columns df |}.

(** [get_price_data]. [download] is [yf.download] for daily bars, by ticker
    and period. *)
Definition get_price_data (download : string → string → DataFrame)
    (ticker0 period : string) : DataFrame :=
  if decide (ticker0 = "") then empty_frame
  else
    let df := download ticker0 period in
    if df_empty df then df else sort_index (rename_columns df).

End DataFetcher.

Import DataFetcher.

(** ** app.py: the manual tickers and the screener table *)

Module App.

(** [str.isspace] on one ASCII character. *)
Definition py_isspace (c : ascii) : bool :=
  let n := nat_of_ascii c in
  ((9 <=? n)%nat && (n <=? 13)%nat) || ((28 <=? n)%nat && (n <=? 32)%nat).

Fixpoint lstrip (s : string) : string :=
  match s with
  | EmptyString => EmptyString
  | String c s' => if py_isspace c then lstrip s' else s
  end.

Fixpoint rstrip (s : string) : string :=
  match s with
  | EmptyString => EmptyString
  | String c s' =>
      let r := rstrip s' in
      if decide (r = "") then (if py_isspace c then "" else String c "")
      else String c r
  end.

(** [s.strip()] *)
Definition strip (s : string) : string := rstrip (lstrip s).

(** [s.split(",")] *)
Fixpoint split_comma (s : string) : list string :=
  match s with
  | EmptyString => [""]
  | String c s' =>
      if decide (c = ","%char) then "" :: split_comma s'
      else match split_comma s' with
           | piece :: pieces => String c piece :: pieces
           | [] => [String c ""]
           end
  end.

(** [[t.strip().upper() for t in manual_tickers.split(",") if t.strip()]],
    under the guard [if manual_tickers.strip()]. *)
Definition manual_list (manual_tickers : string) : list string :=
  if decide (strip manual_tickers = "") then []
  else (fun t => upper (strip t))
       <$> List.filter (fun t => bool_decide (strip t ≠ "")) (split_comma manual_tickers).

(** The record appended for a manual ticker. *)
Definition manual_record (today : Z) (t : string) : IpoRecord :=
  {| ticker := t; company := t; exchange := ""; ipo_date := Some today |}.

(** The loop that attaches the manual tickers to the IPO table. *)
Fixpoint attach_manual (today : Z) (manual : list string)
    (ipos_df : list IpoRecord) : list IpoRecord :=
  match manual with
  | [] => ipos_df
  | t :: rest =>
      if bool_decide (ipos_df = []) || negb (bool_decide (t ∈ ticker <$> ipos_df))
      then attach_manual today rest (ipos_df ++ [manual_record today t])
      else attach_manual today rest ipos_df
  end.

(** [Series.unique()]: first occurrences, in order. *)
Fixpoint unique (l : list string) : list string :=
  match l with
  | [] => []
  | x :: l' => x :: List.filter (fun y => bool_decide (y ≠ x)) (unique l')
  end.

(** [sorted(ipos_df["ticker"].unique())] *)
Definition tickers_of (ipos_df : list IpoRecord) : list string :=
  merge_sort String.le (unique (ticker <$> ipos_df)).

(** Lines 159-161: the change since the first bar of the window. *)
Definition change_pct (first_close last_close : option pyfloat)
  : result (option pyfloat) :=
  match first_close, last_close with
  | Some f, Some l =>
      if fnonzero f then
        q ← fdiv l f;
        Ok (Some (fmul (fsub q (Fin 1)) (Fin (Qc_of_Z 100))))
      else Ok None
  | _, _ => Ok None
  end.

(** One row of the screener table. The columns taken from the info source
    (sector, market capitalisation) are not part of the model. The
    per-window cells are keyed by the window: the percentage and the
    status. *)
Record ScreenerRow : Type := {
  Ticker : string;
  Company : string;
  IPO_Date : option Z;
  Days_Since_IPO : Z;
  Exchange : string;
  Current_Price : option pyfloat;
  Change_pct : option pyfloat;
  Volume : option pyfloat;
  Price_vs_SMA : gmap Z (option pyfloat * string)
}.

(** The loop over the windows that fills the cells of one row. *)
Fixpoint ma_cells (latest : gmap string value) (last_close : option pyfloat)
    (signals : gmap Z string) (windows : list Z)
    (cells : gmap Z (option pyfloat * string))
  : result (gmap Z (option pyfloat * string)) :=
  match windows with
  | [] => Ok cells
  | window :: rest =>
      let sma_val := series_get latest (sma_col window) in
      sma_scalar ← _to_scalar sma_val;
      vs_pct ← match sma_scalar, last_close with
               | Some m, Some l =>
                   q ← fdiv l m;
                   Ok (Some (fmul (fsub q (Fin 1)) (Fin (Qc_of_Z 100))))
               | _, _ => Ok None
               end;
      ma_cells latest last_close signals rest
        (<[window := (vs_pct, default "n/a" (signals !! window))]> cells)
  end.

(** [x >= y] on floats. *)
Definition fge (x y : pyfloat) : bool :=
  match x, y with
  | Fin a, Fin b => bool_decide (b ≤ a)%Qc
  | _, _ => false
  end.

Section Formatting.

(** The renderings [f"{x:,.1f}"] and [f"{x:,.0f}"] of a float. *)
Variable fmt_1f : pyfloat → string.
Variable fmt_0f : pyfloat → string.

Definition format_market_cap (v : value) : result string :=
  match v with
  | VNone => Ok "N/A"
  | _ =>
      na ← py_bool (pd_isna v);
      if (na : bool) then Ok "N/A"
      else
        x ← py_float v;
        if fge x (Fin (Qc_of_Z (10 ^ 9))) then
          q ← fdiv x (Fin (Qc_of_Z (10 ^ 9)));
          Ok ("$" +:+ fmt_1f q +:+ "B")
        else if fge x (Fin (Qc_of_Z (10 ^ 6))) then
          q ← fdiv x (Fin (Qc_of_Z (10 ^ 6)));
          Ok ("$" +:+ fmt_1f q +:+ "M")
        else Ok ("$" +:+ fmt_0f x)
  end.

End Formatting.

(** The four cell styles of [ma_color]. *)
Definition style_missing : string :=
  "background-color: rgba(15,23,42,0.9); color: #9ca3af;".
Definition style_positive : string :=
  "background-color: rgba(22,163,74,0.25); color: #bbf7d0;".
Definition style_negative : string :=
  "background-color: rgba(220,38,38,0.25); color: #fecaca;".
Definition style_zero : string :=
  "background-color: rgba(15,23,42,0.9); color: #e5e7eb;".

(** [ma_color], on a cell of a percentage column: [None], or a float. *)
Definition ma_color (val : option pyfloat) : string :=
  match val with
  | None | Some NaN => style_missing
  | Some x =>
      if fgt x (Fin 0) then style_positive
      else if flt x (Fin 0) then style_negative
      else style_zero
  end.

Section Screener.

Context {RM : RollingMean}.

(** The price source, by ticker and period, today's date, and the moving
    averages selected in the sidebar. *)
Variable load_price_data : string → string → DataFrame.
Variable today : Z.
Variable period : string.
Variable selected_mas : list Z.

Definition ma_options : list Z := [10; 20; 50; 100; 200].

(** [selected_mas or ma_options] *)
Definition windows : list Z :=
  match selected_mas with
  | [] => ma_options
  | _ => selected_mas
  end.

(** The body of the loop over the tickers, for a ticker whose price table
    is not empty. The difference [today - ipo_date] is not defined for a
    missing date. *)
Definition screener_row (ipos_df : list IpoRecord) (ticker0 : string)
    (price_df : DataFrame) : result ScreenerRow :=
  price_df ← calculate_moving_averages price_df windows;
  '(signals, latest) ← get_ma_signals price_df windows;
  first_cell ← match df_get price_df "Close" with
               | None => Raise KeyError
               | Some [] => Raise IndexError
               | Some (c :: _) => Ok c
               end;
  first_close ← _to_scalar first_cell;
  last_close ← _to_scalar (series_get latest "Close");
  let volume := series_get latest "Volume" in
  base_row ← match last (List.filter (fun r => bool_decide (ticker r = ticker0)) ipos_df) with
             | None => Raise IndexError
             | Some r => Ok r
             end;
  days_since_ipo ← match ipo_date base_row with
                   | Some d => Ok (today - d)
                   | None => Raise TypeError
                   end;
  change ← change_pct first_close last_close;
  vol ← match volume with
        | VNone => Ok None
        | _ => x ← py_float volume; Ok (Some x)
        end;
  cells ← ma_cells latest last_close signals windows ∅;
  Ok {| Ticker := ticker0;
        Company := company base_row;
        IPO_Date := ipo_date base_row;
        Days_Since_IPO := days_since_ipo;
        Exchange := exchange base_row;
        Current_Price := last_close;
        Change_pct := change;
        Volume := vol;
        Price_vs_SMA := cells |}.

(** The loop over the tickers: a ticker without price data is skipped. *)
Fixpoint screener_loop (ipos_df : list IpoRecord) (tickers : list string)
    (rows : list ScreenerRow) : result (list ScreenerRow) :=
  match tickers with
  | [] => Ok rows
  | ticker0 :: rest =>
      let price_df := load_price_data ticker0 period in
      if df_empty price_df then screener_loop ipos_df rest rows
      else
        row ← screener_row ipos_df ticker0 price_df;
        screener_loop ipos_df rest (rows ++ [row])
  end.

(** The rows of the screener table for an IPO table. *)
Definition screener_rows (ipos_df : list IpoRecord)
  : result (list ScreenerRow) :=
  screener_loop ipos_df (tickers_of ipos_df) [].

End Screener.

End App.

Import App.

(** ** charts.py *)

Module Charts.

Definition MA_COLORS : gmap Z string :=
  {[ 10 := "#22c55e"; 20 := "#0ea5e9"; 50 := "#a855f7";
     100 := "#f97316"; 200 := "#e11d48" ]}.

(** A trace of a figure, with its data and what tells the traces apart;
    the constant styling (widths, opacity) is left out. *)
Inductive trace : Type :=
| Candlestick (x : list Z) (open high low close : list value)
| Scatter (x : list Z) (y : list value) (name color : string)
| Bar (x : list Z) (y : list value) (marker_color : list string).

(** The [name] argument a trace is created with. *)
Definition trace_name (t : trace) : string :=
  match t with
  | Candlestick _ _ _ _ _ => "Price"
  | Scatter _ _ name _ => name
  | Bar _ _ _ => "Volume"
  end.

Record Figure : Type := {
  traces : list trace;
  title : string
}.

(** [df[col]] *)
Definition getitem (df : DataFrame) (col : string) : result (list value) :=
  match df_get df col with
  | Some cells => Ok cells
  | None => Raise KeyError
  end.

(** [df[col].notna().any()] *)
Definition notna_any (cells : list value) : bool :=
  existsb (fun v => negb (checknull v)) cells.

(** [f"SMA {window}"] *)
Definition sma_name (window : Z) : string := "SMA " +:+ pretty window.

(** The overlay of one window, when its column is there and holds a
    value. *)
Definition ma_overlay (df : DataFrame) (window : Z) : list trace :=
  match df_get df (sma_col window) with
  | Some cells =>
      if notna_any cells
      then [Scatter (index df) cells (sma_name window)
              (default "#64748b" (MA_COLORS !! window))]
      else []
  | None => []
  end.

Section Chart.

(** [c >= o] on two cells, as Python evaluates it in a condition. *)
Variable py_ge : value → value → result bool.

(** The colours of the volume bars. *)
Fixpoint volume_colors (bars : list (value * value)) : result (list string) :=
  match bars with
  | [] => Ok []
  | (o, c) :: rest =>
      up ← py_ge c o;
      colors ← volume_colors rest;
      Ok ((if (up : bool) then "#22c55e" else "#ef4444") :: colors)
  end.

Definition create_candlestick_chart (df : DataFrame) (ticker0 : string)
    (ma_windows : list Z) : result Figure :=
  if df_empty df then
    Ok {| traces := []; title := ticker0 +:+ " – no price data available" |}
  else
    open ← getitem df "Open";
    high ← getitem df "High";
    low ← getitem df "Low";
    close ← getitem df "Close";
    let candles := Candlestick (index df) open high low close in
    close_line ← match df_get df "Close" with
                 | Some cells =>
                     Ok [Scatter (index df) cells "Close price" "#e5e7eb"]
                 | None => Ok []
                 end;
    let overlays := flat_map (ma_overlay df) ma_windows in
    open' ← getitem df "Open";
    close' ← getitem df "Close";
    colors ← volume_colors (zip open' close');
    volume ← getitem df "Volume";
    Ok {| traces := candles :: close_line ++ overlays
                    ++ [Bar (index df) volume colors];
          title := ticker0 +:+ " – Candlestick with Moving Averages" |}.

End Chart.

End Charts.

Import Charts.

(** ** Vocabulary of the statements *)

(** The pandas containers, as opposed to scalars. *)
Definition is_container (v : value) : bool :=
  match v with
  | VSeries _ | VIndex _ => true
  | _ => false
  end.

(** A float cell. *)
Definition cell (x : pyfloat) : value := VFloat x.

(** A finite float cell with an integer value. *)
Definition num (n : Z) : value := VFloat (Fin (Qc_of_Z n)).

(** The moving-average value [get_ma_signals] reads for a window, once
    coerced; missing also when the coercion raises. *)
Definition ma_scalar_of (latest : gmap string value) (window : Z)
  : option pyfloat :=
  match _to_scalar (series_get latest (sma_col window)) with
  | Ok m => m
  | Raise _ => None
  end.

(** A price table of one bar whose close is 105 and whose 10-bar average
    is 100. *)
Definition df_close_105 : DataFrame :=
  {| index := [0];
     columns := {[ "Close" := [num 105]; "SMA_10" := [num 100] ]} |}.

(** [xs[lo:hi]] *)
Definition slice {A} (lo hi : nat) (xs : list A) : list A :=
  take (hi - lo) (drop lo xs).

(** The column [calculate_moving_averages] computes for one positive
    window on a table of [n] bars. *)
Definition sma_column {RM : RollingMean} (n : nat) (closes : list value)
    (window : Z) : result (list value) :=
  if Z.of_nat n >=? window then rolling_mean_series window closes
  else Ok (replicate n VNA).

(** A price table without bars that has a Close column. *)
Definition df_no_bars : DataFrame :=
  {| index := []; columns := {[ "Close" := [] ]} |}.

(** A price table of three bars. *)
Definition df_three_bars : DataFrame :=
  {| index := [0; 1; 2];
     columns := {[ "Close" := [num 10; num 20; num 60] ]} |}.

(** The three closes of [df_three_bars]. *)
Definition three_closes : list pyfloat :=
  [Fin (Qc_of_Z 10); Fin (Qc_of_Z 20); Fin (Qc_of_Z 60)].

(** What [calculate_moving_averages] makes of [df_three_bars] for the
    windows 2, 0, -1 and 5. *)
Definition df_three_bars_sma : DataFrame :=
  match calculate_moving_averages (RM := exact_mean) df_three_bars
          [2; 0; -1; 5] with
  | Ok df => df
  | Raise _ => df_three_bars
  end.

(** A price source with data for every ticker but BBB. *)
Definition demo_prices (ticker0 period : string) : DataFrame :=
  if decide (ticker0 = "BBB") then {| index := []; columns := ∅ |}
  else df_three_bars.

(** An IPO table of three tickers listed on day 100. *)
Definition three_ipos : list IpoRecord :=
  (fun t => {| ticker := t; company := t; exchange := "NYSE";
               ipo_date := Some 100 |}) <$> ["AAA"; "BBB"; "CCC"].

(** The price source has data for a ticker. *)
Definition has_prices (load_price_data : string → string → DataFrame)
    (period ticker0 : string) : Prop :=
  df_empty (load_price_data ticker0 period) = false.

#[global] Instance has_prices_dec load_price_data period ticker0 :
  Decision (has_prices load_price_data period ticker0).
Proof. unfold has_prices. apply _. Defined.

(** A calendar that lists ABC twice, once with a date and once without. *)
Definition calendar_abc : list CalendarRow :=
  [ {| symbol := Some "ABC"; name := Some "Abc Corp";
       row_exchange := Some "NASDAQ"; date := DateText (Some 700) |};
    {| symbol := Some "ABC"; name := Some "Abc Corp";
       row_exchange := Some "NASDAQ"; date := DateAbsent |} ].

Definition finnhub_abc (start stop : Z) : result (list CalendarRow) :=
  Ok calendar_abc.

(** A table is well formed when every column has one cell per bar. *)
Definition well_formed (df : DataFrame) : Prop :=
  ∀ c col, df_get df c = Some col → length col = df_len df.

(** A calendar row is admitted to the IPO table when it has a symbol and its
    exchange names a US exchange. *)
Definition admitted (row : CalendarRow) : Prop :=
  str_or (symbol row) "" ≠ "" ∧
  existsb (contains (upper (str_or (row_exchange row) ""))) us_exchanges
  = true.

(** A calendar with a good row for ABC and a row for XYZ whose date cannot
    be read. *)
Definition calendar_bad_date : list CalendarRow :=
  [ {| symbol := Some "ABC"; name := Some "Abc Corp";
       row_exchange := Some "NASDAQ"; date := DateText (Some 700) |};
    {| symbol := Some "XYZ"; name := None;
       row_exchange := Some "nyse"; date := DateText None |} ].

Definition finnhub_bad_date (start stop : Z) : result (list CalendarRow) :=
  Ok calendar_bad_date.

(** Two dated records of one ticker and a record of another. *)
Definition dated_records : list IpoRecord :=
  [ {| ticker := "ABC"; company := "Abc new"; exchange := "NYSE";
       ipo_date := Some 720 |};
    {| ticker := "DEF"; company := "Def"; exchange := "NYSE";
       ipo_date := Some 710 |};
    {| ticker := "ABC"; company := "Abc old"; exchange := "NASDAQ";
       ipo_date := Some 700 |} ].

(** The characters of a string. *)
Definition chars (s : string) : list ascii := String.list_ascii_of_string s.

(** The percentage cell of a window: [(last_close / sma_scalar - 1) * 100]
    when both are present. *)
Definition vs_pct (sma_scalar last_close : option pyfloat)
  : result (option pyfloat) :=
  match sma_scalar, last_close with
  | Some m, Some l =>
      q ← fdiv l m;
      Ok (Some (fmul (fsub q (Fin 1)) (Fin (Qc_of_Z 100))))
  | _, _ => Ok None
  end.

(** A price table of two bars that closed at zero. *)
Definition df_zero_closes : DataFrame :=
  {| index := [0; 1]; columns := {[ "Close" := [num 0; num 0] ]} |}.

(** A price source that has [df_zero_closes] for every ticker but AAA. *)
Definition zero_prices (ticker0 period : string) : DataFrame :=
  if decide (ticker0 = "AAA") then df_three_bars else df_zero_closes.

(** The cells the row loop computes for [df_close_105] and the window
    10. *)
Definition cells_close_105 : gmap Z (option pyfloat * string) :=
  match ma_cells (iloc_last df_close_105) (Some (Fin (Qc_of_Z 105)))
          {[ 10 := "above" ]} [10] ∅ with
  | Ok cells => cells
  | Raise _ => ∅
  end.

(** [df_zero_closes] with the 2-bar average. *)
Definition df_zero_closes_sma : DataFrame :=
  match calculate_moving_averages (RM := exact_mean) df_zero_closes [2] with
  | Ok df => df
  | Raise _ => df_zero_closes
  end.

(** The row assembled for AAA from [three_ipos] and [df_three_bars]. *)
Definition row_aaa : ScreenerRow :=
  match screener_row (RM := exact_mean) 200 [2] three_ipos "AAA"
          df_three_bars with
  | Ok row => row
  | Raise _ =>
      {| Ticker := ""; Company := ""; IPO_Date := None; Days_Since_IPO := 0;
         Exchange := ""; Current_Price := None; Change_pct := None;
         Volume := None; Price_vs_SMA := ∅ |}
  end.

(** A price source that delivers three bars out of order. *)
Definition unsorted_prices (ticker0 period : string) : DataFrame :=
  {| index := [3; 1; 2];
     columns := {[ "Close" := [num 30; num 10; num 20];
                   "Adj Close" := [num 29; num 9; num 19] ]} |}.

(** The price columns the chart reads. *)
Definition price_columns : list string := ["Open"; "High"; "Low"; "Close"].

(** A column of finite floats. *)
Definition fins (qs : list Qc) : list value := (λ q, cell (Fin q)) <$> qs.

(** [c >= o] on two float cells. *)
Definition float_ge (c o : value) : result bool :=
  match c, o with
  | VFloat x, VFloat y => Ok (fge x y)
  | _, _ => Raise TypeError
  end.

(** A price table of three bars with all its columns. *)
Definition df_ohlcv : DataFrame :=
  {| index := [0; 1; 2];
     columns := {[ "Open" := [num 9; num 21; num 60];
                   "High" := [num 11; num 22; num 61];
                   "Low" := [num 8; num 19; num 55];
                   "Close" := fins [Qc_of_Z 10; Qc_of_Z 20; Qc_of_Z 60];
                   "Volume" := [VInt 100; VInt 200; VInt 300] ]} |}.

(** [df_ohlcv] without its Low column. *)
Definition df_no_low : DataFrame :=
  {| index := index df_ohlcv; columns := delete "Low" (columns df_ohlcv) |}.

(** [df_ohlcv] with the averages of 2 and 5 bars. *)
Definition df_ohlcv_sma : DataFrame :=
  match calculate_moving_averages (RM := exact_mean) df_ohlcv [2; 5] with
  | Ok df => df
  | Raise _ => df_ohlcv
  end.

(** The chart of [df_ohlcv_sma]. *)
Definition fig_ohlcv : Figure :=
  match create_candlestick_chart float_ge df_ohlcv_sma "AAA" [2; 5] with
  | Ok fig => fig
  | Raise _ => {| traces := []; title := "" |}
  end.

(** * Scalar coercion *)

Section to_scalar.

Lemma is_na_scalar_scalar v :
  is_container v = false → _is_na_scalar v = Ok (checknull v).
Proof. by destruct v. Qed.

Lemma is_na_scalar_series xs :
  _is_na_scalar (VSeries xs) = Ok (Py.all (checknull <$> xs)).
Proof. done. Qed.

Lemma to_scalar_scalar v :
  is_container v = false →
  _to_scalar v = if checknull v then Ok None else float_or_none v.
Proof.
  intros Hv. unfold _to_scalar. rewrite is_na_scalar_scalar by done.
  simpl. destruct (checknull v); [done|]. by destruct v.
Qed.

Lemma all_app bs1 bs2 : Py.all (bs1 ++ bs2) = Py.all bs1 && Py.all bs2.
Proof. unfold Py.all. apply forallb_app. Qed.

Lemma last_item_snoc xs x : last_item (xs ++ [x]) = x.
Proof. unfold last_item. apply last_last. Qed.

(** A missing value coerces to missing. *)
Lemma to_scalar_missing v : checknull v = true → _to_scalar v = Ok None.
Proof.
  intros Hv. rewrite to_scalar_scalar; [by rewrite Hv|].
  by destruct v.
Qed.

(** A Series or an Index holding one finite number coerces to it. *)
Lemma to_scalar_singleton q :
  _to_scalar (VSeries [cell (Fin q)]) = Ok (Some (Fin q)) ∧
  _to_scalar (VIndex [cell (Fin q)]) = Ok (Some (Fin q)).
Proof. done. Qed.

(** On a scalar that is not an oversized integer the coercion returns. *)
Lemma to_scalar_scalar_returns v :
  is_container v = false →
  (∀ n, v = VInt n → Z.abs n < float_int_limit) →
  ∃ r, _to_scalar v = Ok r.
Proof.
  intros Hv Hn. rewrite to_scalar_scalar by done.
  destruct (checknull v); [by eexists|].
  unfold float_or_none.
  destruct v as [| | |x|n|b| | |]; simpl in *; try discriminate; eauto.
  specialize (Hn n eq_refl). apply Z.ltb_lt in Hn. rewrite Hn. eauto.
Qed.

(** On a Series whose last element is a scalar that is not an oversized
    integer, and on an empty Series, the coercion returns. *)
Lemma to_scalar_series_returns xs :
  is_container (last_item xs) = false →
  (∀ n, last_item xs = VInt n → Z.abs n < float_int_limit) →
  ∃ r, _to_scalar (VSeries xs) = Ok r.
Proof.
  intros Hlast Hn. unfold _to_scalar. rewrite is_na_scalar_series. simpl.
  destruct (Py.all _); [by eexists|].
  destruct (length xs =? 0)%nat; [by eexists|].
  rewrite is_na_scalar_scalar by done. simpl.
  destruct (checknull (last_item xs)) eqn:Hnull; [by eexists|].
  pose proof (to_scalar_scalar_returns _ Hlast Hn) as [r Hr].
  rewrite to_scalar_scalar, Hnull in Hr by done. eauto.
Qed.

(** An integer beyond the range of a float is a second way to raise: the
    [OverflowError] of [float] is not among the exceptions caught. *)
Lemma to_scalar_overflow : _to_scalar (VInt (10 ^ 400)) = Raise OverflowError.
Proof. reflexivity. Qed.

(** C3. Scalar coercion is meant never to raise, but it does on an Index
    of two numbers: [pd.isna] answers with a boolean array, which
    [_is_na_scalar] passes to [bool], and the truth value of an array of
    two elements is a [ValueError] that nothing catches. *)
Theorem to_scalar_index_raises :
  _to_scalar (VIndex [num 1; num 2]) = Raise ValueError.
Proof. reflexivity. Qed.

(** C7, as stated, fails: the last element of a Series is converted with
    [float], not with [_to_scalar]. For a Series whose only element is the
    Series [1.0, 2.0] the coercion gives missing, while the coercion of
    that element gives 2.0. *)
Lemma to_scalar_not_recursive :
  let inner := VSeries [num 1; num 2] in
  _to_scalar (VSeries [inner]) = Ok None ∧
  _to_scalar (last_item [inner]) = Ok (Some (Fin (Qc_of_Z 2))) ∧
  _to_scalar (VSeries [inner]) ≠ _to_scalar (last_item [inner]).
Proof. repeat split; done. Qed.

(** C7, amended. The coercion of a Series whose last element is a scalar
    is the coercion of that element, and so is the coercion of an Index of
    one scalar. *)
Theorem to_scalar_series_last (xs : list value) (x : value) :
  is_container x = false →
  _to_scalar (VSeries (xs ++ [x])) = _to_scalar x ∧
  _to_scalar (VIndex [x]) = _to_scalar x.
Proof.
  intros Hx. rewrite (to_scalar_scalar x) by done. split.
  - unfold _to_scalar. rewrite is_na_scalar_series. simpl.
    rewrite fmap_app, all_app. simpl.
    rewrite last_item_snoc, is_na_scalar_scalar by done.
    replace (length (xs ++ [x]) =? 0)%nat with false
      by (symmetry; apply Nat.eqb_neq; rewrite length_app; simpl; lia).
    destruct (checknull x) eqn:Hnull; simpl.
    + by destruct (Py.all _).
    + by rewrite andb_false_r.
  - unfold _to_scalar. simpl. unfold last_item. simpl.
    rewrite is_na_scalar_scalar by done.
    destruct x; simpl in *; try done.
    by destruct x.
Qed.

Lemma to_scalar_series_last_witness :
  _to_scalar (VSeries ([num 1] ++ [num 2])) = _to_scalar (num 2) ∧
  _to_scalar (VIndex [num 2]) = _to_scalar (num 2).
Proof. apply (to_scalar_series_last [num 1] (num 2)). reflexivity. Defined.

End to_scalar.

(** * Signals *)

Section signals.

Lemma signals_loop_spec latest close c ws s0 :
  _to_scalar close = Ok c →
  (∀ w, w ∈ ws → is_ok (_to_scalar (series_get latest (sma_col w))) = true) →
  ∃ s, signals_loop latest close ws s0 = Ok s ∧
       ∀ w, s !! w = if decide (w ∈ ws)
                     then Some (classify c (ma_scalar_of latest w))
                     else s0 !! w.
Proof.
  intros Hc. revert s0.
  induction ws as [|w0 ws IH]; intros s0 Hok.
  - exists s0. split; [done|]. intros w.
    destruct (decide (w ∈ [])) as [Hin|]; [|done]. by apply elem_of_nil in Hin.
  - simpl. rewrite Hc. simpl.
    pose proof (Hok w0 (list_elem_of_here _ _)) as Hw0.
    destruct (_to_scalar (series_get latest (sma_col w0))) as [m0|] eqn:Hm0;
      [|done].
    simpl.
    destruct (IH (<[w0:=classify c m0]> s0)) as (s & Hs & Hlook).
    { intros w Hw. apply Hok. by apply list_elem_of_further. }
    exists s. split; [done|]. intros w. rewrite Hlook.
    destruct (decide (w ∈ ws)) as [Hin|Hnin].
    + rewrite decide_True; [done|]. by apply list_elem_of_further.
    + destruct (decide (w = w0)) as [->|Hne].
      * rewrite lookup_insert_eq.
        rewrite decide_True by apply list_elem_of_here.
        unfold ma_scalar_of. by rewrite Hm0.
      * rewrite lookup_insert_ne by done.
        rewrite decide_False; [done|].
        intros [?|?]%elem_of_cons; done.
Qed.

Lemma classify_above c m :
  classify c m = "above" ↔ ∃ x y, c = Some x ∧ m = Some y ∧ fgt x y = true.
Proof.
  unfold classify. split.
  - destruct c as [x|], m as [y|]; try done.
    destruct (fgt x y) eqn:Hgt; [|done]. eauto.
  - intros (x & y & -> & -> & Hgt). by rewrite Hgt.
Qed.

Lemma fgt_false_of_le x y : flt x y = true ∨ feq x y = true → fgt x y = false.
Proof.
  unfold flt. destruct x as [a|], y as [b|]; simpl; try done.
  intros [Hlt%bool_decide_eq_true | Heq%bool_decide_eq_true];
    apply bool_decide_eq_false.
  - intros Hba. apply (Qclt_not_le _ _ Hlt). by apply Qclt_le_weak.
  - subst. apply (irreflexivity Qclt).
Qed.

(** C2. On a table that is not empty, for every requested window whose
    cells coerce, [get_ma_signals] returns the latest row and a signal for
    the window that is 'above' exactly when the coerced close is strictly
    greater than the coerced moving average, 'below' when it is strictly
    less or equal, and 'n/a' when either of the two is missing. *)
Theorem get_ma_signals_classifies (df : DataFrame) (ws : list Z) (w : Z)
    (c m : option pyfloat) :
  df_empty df = false →
  w ∈ ws →
  _to_scalar (series_get (iloc_last df) "Close") = Ok c →
  (∀ w', w' ∈ ws →
     is_ok (_to_scalar (series_get (iloc_last df) (sma_col w'))) = true) →
  _to_scalar (series_get (iloc_last df) (sma_col w)) = Ok m →
  ∃ signals,
    get_ma_signals df ws = Ok (signals, iloc_last df) ∧
    (signals !! w = Some "above" ↔
       ∃ x y, c = Some x ∧ m = Some y ∧ fgt x y = true) ∧
    (∀ x y, c = Some x → m = Some y →
       flt x y = true ∨ feq x y = true → signals !! w = Some "below") ∧
    (c = None ∨ m = None → signals !! w = Some "n/a").
Proof.
  intros Hne Hw Hc Hok Hm.
  destruct (signals_loop_spec (iloc_last df) _ c ws ∅ Hc Hok)
    as (s & Hs & Hlook).
  exists s. unfold get_ma_signals. rewrite Hne, Hs. simpl.
  split; [done|].
  specialize (Hlook w). rewrite decide_True in Hlook by done.
  unfold ma_scalar_of in Hlook. rewrite Hm in Hlook. rewrite Hlook.
  split; [|split].
  - rewrite <- classify_above. split; [by intros [= ->]|by intros ->].
  - intros x y -> -> Hle. simpl. by rewrite fgt_false_of_le.
  - intros [-> | ->]; [done|]. by destruct c.
Qed.

Lemma get_ma_signals_classifies_witness :
  ∃ signals,
    get_ma_signals df_close_105 [10] = Ok (signals, iloc_last df_close_105) ∧
    (signals !! 10 = Some "above" ↔
       ∃ x y, Some (Fin (Qc_of_Z 105)) = Some x ∧
              Some (Fin (Qc_of_Z 100)) = Some y ∧ fgt x y = true) ∧
    (∀ x y, Some (Fin (Qc_of_Z 105)) = Some x →
       Some (Fin (Qc_of_Z 100)) = Some y →
       flt x y = true ∨ feq x y = true → signals !! 10 = Some "below") ∧
    (Some (Fin (Qc_of_Z 105)) = None ∨ Some (Fin (Qc_of_Z 100)) = None →
     signals !! 10 = Some "n/a").
Proof.
  apply (get_ma_signals_classifies df_close_105 [10] 10).
  - reflexivity.
  - apply list_elem_of_here.
  - reflexivity.
  - intros w' Hw'. apply list_elem_of_singleton in Hw'. subst w'. reflexivity.
  - reflexivity.
Defined.

(** The three cases of the specification: close 105 against an average of
    100, close 95 against 100, and a missing average. *)
Example classify_examples :
  classify (Some (Fin (Qc_of_Z 105))) (Some (Fin (Qc_of_Z 100))) = "above" ∧
  classify (Some (Fin (Qc_of_Z 95))) (Some (Fin (Qc_of_Z 100))) = "below" ∧
  classify (Some (Fin (Qc_of_Z 100))) (Some (Fin (Qc_of_Z 100))) = "below" ∧
  classify (Some (Fin (Qc_of_Z 95))) None = "n/a".
Proof. repeat split. Qed.

(** On an empty table there is no latest bar and no signal. *)
Lemma get_ma_signals_empty df ws :
  df_empty df = true → get_ma_signals df ws = Ok (∅, ∅).
Proof. intros Hempty. unfold get_ma_signals. by rewrite Hempty. Qed.

End signals.

(** * Moving averages *)

Section rolling.

Context {RM : RollingMean}.

Lemma observations_fin q l : observations (Fin q :: l) = q :: observations l.
Proof. done. Qed.

Lemma observations_nan l : observations (NaN :: l) = observations l.
Proof. done. Qed.

Lemma observations_length l : (length (observations l) ≤ length l)%nat.
Proof.
  induction l as [|[q|] l IH]; [done| |].
  - rewrite observations_fin. simpl. lia.
  - rewrite observations_nan. simpl. lia.
Qed.

(** A window without NaN has all its cells as observations, a window with
    a NaN lacks one. *)
Lemma observations_all l :
  if decide (NaN ∈ l) then (length (observations l) < length l)%nat
  else length (observations l) = length l.
Proof.
  induction l as [|[q|] l IH].
  - rewrite decide_False; [done|]. by intros ?%elem_of_nil.
  - rewrite observations_fin. simpl.
    destruct (decide (NaN ∈ l)) as [Hin|Hnin].
    + rewrite decide_True by (by apply list_elem_of_further). lia.
    + rewrite decide_False; [lia|].
      by intros [?|?]%elem_of_cons.
  - rewrite observations_nan, decide_True by apply list_elem_of_here.
    pose proof (observations_length l). simpl. lia.
Qed.

Lemma window_cells_slice (W i : nat) (xs : list pyfloat) :
  window_cells W i xs = slice (S i - W) (S i) xs.
Proof.
  unfold window_cells, slice. rewrite take_drop_commute.
  f_equal. f_equal. lia.
Qed.

Lemma window_cells_length (W i : nat) (xs : list pyfloat) :
  (i < length xs)%nat →
  length (window_cells W i xs) = (S i `min` W)%nat.
Proof.
  intros Hi. unfold window_cells. rewrite length_drop, length_take. lia.
Qed.

Lemma rolling_mean_length W mp xs :
  length (rolling_mean W mp xs) = length xs.
Proof. unfold rolling_mean. by rewrite length_map, length_seq. Qed.

Lemma rolling_mean_lookup W mp xs (i : nat) :
  (i < length xs)%nat →
  rolling_mean W mp xs !! i = Some (roll_mean_at W mp i xs).
Proof.
  intros Hi. unfold rolling_mean.
  change (map ?f ?l) with (f <$> l).
  rewrite list_lookup_fmap, lookup_seq_lt by done. done.
Qed.

(** Before the first full window the rolling mean is missing. *)
Lemma rolling_mean_early (W : nat) xs (i : nat) :
  (S i < W)%nat → (i < length xs)%nat →
  rolling_mean W W xs !! i = Some NaN.
Proof.
  intros HiW Hi. rewrite rolling_mean_lookup by done. f_equal.
  unfold roll_mean_at.
  pose proof (observations_length (window_cells W i xs)) as Hobs.
  rewrite window_cells_length in Hobs by done.
  replace (W <=? _)%nat with false; [done|].
  symmetry. apply Nat.leb_gt. lia.
Qed.

(** From the first full window on it is missing when a close of the window
    is NaN, and a number when none is. *)
Lemma rolling_mean_full (W : nat) xs (i : nat) :
  (0 < W)%nat → (W ≤ S i)%nat → (i < length xs)%nat →
  rolling_mean W W xs !! i
  = Some (if decide (NaN ∈ slice (S i - W) (S i) xs) then NaN
          else Fin (window_mean W i xs)).
Proof.
  intros HW HiW Hi. rewrite rolling_mean_lookup by done. f_equal.
  unfold roll_mean_at. rewrite <- window_cells_slice.
  pose proof (observations_all (window_cells W i xs)) as Hobs.
  rewrite window_cells_length in Hobs by done.
  destruct (decide (NaN ∈ window_cells W i xs)).
  - replace (W <=? _)%nat with false; [done|].
    symmetry. apply Nat.leb_gt. lia.
  - rewrite Hobs.
    replace (W <=? _)%nat with true by (symmetry; apply Nat.leb_le; lia).
    by replace (0 <? _)%nat with true by (symmetry; apply Nat.ltb_lt; lia).
Qed.

Lemma float64_cells_floats (xs : list pyfloat) :
  float64_cells (cell <$> xs) = Ok xs.
Proof.
  induction xs as [|x xs IH]; [done|].
  rewrite fmap_cons. simpl. by rewrite IH.
Qed.

End rolling.

Section moving_averages.

Context {RM : RollingMean}.

#[local] Instance sma_col_inj : Inj (=) (=) sma_col.
Proof.
  intros w1 w2 Heq. unfold sma_col in Heq.
  apply (inj (String.app "SMA_")) in Heq. by apply (inj pretty) in Heq.
Qed.

Lemma df_len_set df col cells : df_len (df_set df col cells) = df_len df.
Proof. done. Qed.

(** One turn of the loop for a positive window sets the window's column. *)
Lemma sma_loop_positive closes w rest df :
  0 < w →
  sma_loop closes (w :: rest) df =
  col ← sma_column (df_len df) closes w;
  sma_loop closes rest (df_set df (sma_col w) col).
Proof.
  intros Hw. simpl. unfold sma_column.
  replace (w <=? 0) with false by (symmetry; apply Z.leb_gt; lia).
  by destruct (Z.of_nat (df_len df) >=? w).
Qed.

Lemma sma_loop_nonpositive closes w rest df :
  w ≤ 0 → sma_loop closes (w :: rest) df = sma_loop closes rest df.
Proof.
  intros Hw. simpl.
  by replace (w <=? 0) with true by (symmetry; apply Z.leb_le; lia).
Qed.

(** What the loop leaves behind: the index and every column that is not the
    SMA column of a positive window are untouched, and the SMA column of
    every positive window holds the column computed for that window. *)
Lemma sma_loop_spec closes ws df df' :
  sma_loop closes ws df = Ok df' →
  index df' = index df ∧
  (∀ c, (∀ w, w ∈ ws → 0 < w → c ≠ sma_col w) →
        columns df' !! c = columns df !! c) ∧
  (∀ w, w ∈ ws → 0 < w →
        ∃ col, sma_column (df_len df) closes w = Ok col ∧
               columns df' !! sma_col w = Some col).
Proof.
  revert df. induction ws as [|w0 rest IH]; intros df Hloop.
  - injection Hloop as <-. split; [done|]. split; [done|].
    intros w Hw. by apply elem_of_nil in Hw.
  - destruct (decide (w0 ≤ 0)) as [Hw0|Hw0].
    + rewrite sma_loop_nonpositive in Hloop by done.
      destruct (IH df Hloop) as (Hidx & Hframe & Hcols).
      split; [done|]. split.
      * intros c Hc. apply Hframe. intros w Hw. apply Hc.
        by apply list_elem_of_further.
      * intros w [->|Hw]%elem_of_cons Hpos; [lia|]. by apply Hcols.
    + rewrite sma_loop_positive in Hloop by lia.
      destruct (sma_column (df_len df) closes w0) as [col0|] eqn:Hcol0;
        [|done].
      simpl in Hloop.
      destruct (IH _ Hloop) as (Hidx & Hframe & Hcols).
      split; [done|]. split.
      * intros c Hc. rewrite Hframe.
        -- simpl. apply lookup_insert_ne. symmetry.
           apply Hc; [apply list_elem_of_here|lia].
        -- intros w Hw. apply Hc. by apply list_elem_of_further.
      * intros w Hw Hpos.
        destruct (decide (w ∈ rest)) as [Hin|Hnin].
        { destruct (Hcols w Hin Hpos) as (col & Hcol & Hlook).
          rewrite df_len_set in Hcol. eauto. }
        apply elem_of_cons in Hw as [->|Hw]; [|done].
        exists col0. split; [done|]. rewrite Hframe.
        -- simpl. apply lookup_insert_eq.
        -- intros w Hw _ Heq. apply (inj sma_col) in Heq. by subst.
Qed.

(** On a numeric Close column the loop returns. *)
Lemma sma_loop_returns closes xs ws df :
  float64_cells closes = Ok xs → ∃ df', sma_loop closes ws df = Ok df'.
Proof.
  intros Hxs. revert df. induction ws as [|w0 rest IH]; intros df.
  - by eexists.
  - destruct (decide (w0 ≤ 0)) as [Hw0|Hw0].
    + rewrite sma_loop_nonpositive by done. apply IH.
    + rewrite sma_loop_positive by lia.
      unfold sma_column, rolling_mean_series. rewrite Hxs.
      destruct (_ >=? _); simpl; apply IH.
Qed.

(** Non-positive windows do not take part in the loop. *)
Lemma sma_loop_filter closes ws df :
  sma_loop closes ws df = sma_loop closes (filter (λ w, 0 < w) ws) df.
Proof.
  revert df. induction ws as [|w0 rest IH]; intros df; [done|].
  destruct (decide (0 < w0)) as [Hw0|Hw0].
  - rewrite filter_cons_True by done.
    rewrite !sma_loop_positive by done.
    destruct (sma_column _ _ _); simpl; [apply IH|done].
  - rewrite filter_cons_False by done.
    rewrite sma_loop_nonpositive by lia. apply IH.
Qed.


Lemma df_empty_false df closes :
  df_get df "Close" = Some closes → (0 < df_len df)%nat → df_empty df = false.
Proof.
  intros Hclose Hlen. unfold df_empty.
  apply orb_false_iff. split.
  - apply Nat.eqb_neq. lia.
  - apply bool_decide_eq_false. intros Hempty.
    unfold df_get in Hclose. by rewrite Hempty in Hclose.
Qed.

(** On a table with bars and a numeric Close column, the function returns
    and every positive requested window has its column. *)
Lemma calculate_moving_averages_column df windows W (closes : list pyfloat) :
  0 < W → W ∈ windows →
  df_get df "Close" = Some (cell <$> closes) →
  df_len df = length closes →
  (0 < length closes)%nat →
  ∃ df' sma,
    calculate_moving_averages df windows = Ok df' ∧
    sma_column (length closes) (cell <$> closes) W = Ok sma ∧
    df_get df' (sma_col W) = Some sma.
Proof.
  intros HW Hin Hclose Hlen Hpos.
  unfold calculate_moving_averages.
  rewrite (df_empty_false df _ Hclose) by lia. rewrite Hclose.
  destruct (sma_loop_returns (cell <$> closes) closes windows df
              (float64_cells_floats closes)) as [df' Hloop].
  destruct (sma_loop_spec _ _ _ _ Hloop) as (_ & _ & Hcols).
  destruct (Hcols W Hin HW) as (sma & Hsma & Hlook).
  rewrite Hlen in Hsma. by exists df', sma.
Qed.

(** The windows of the SMA column. For a positive requested window [W]
    and a close series of at least [W] bars, numbers or NaN,
    [calculate_moving_averages] returns a table whose [SMA_W] column has one
    cell per bar; the cell is missing before position [W-1]; from [W-1] on
    it is missing when one of the [W] closes at positions [i-W+1] to [i] is
    NaN, and when none is it holds a number: the one pandas' rolling mean
    computes there. *)
Theorem calculate_moving_averages_full_windows (df : DataFrame)
    (windows : list Z) (W : Z) (closes : list pyfloat) :
  0 < W → W ∈ windows →
  df_get df "Close" = Some (cell <$> closes) →
  df_len df = length closes →
  W ≤ Z.of_nat (length closes) →
  ∃ df' sma,
    calculate_moving_averages df windows = Ok df' ∧
    df_get df' (sma_col W) = Some sma ∧
    length sma = length closes ∧
    (∀ i : nat, Z.of_nat i < W - 1 → sma !! i = Some (cell NaN)) ∧
    (∀ i : nat, W - 1 ≤ Z.of_nat i → (i < length closes)%nat →
       sma !! i
       = Some (cell (if decide (NaN ∈ slice (S i - Z.to_nat W) (S i) closes)
                     then NaN
                     else Fin (window_mean (Z.to_nat W) i closes)))).
Proof.
  intros HW Hin Hclose Hlen Hlong.
  destruct (calculate_moving_averages_column df windows W closes)
    as (df' & sma & Hcalc & Hsma & Hlook); [done..|lia|].
  exists df', sma. split; [done|]. split; [done|].
  unfold sma_column, rolling_mean_series in Hsma.
  replace (Z.of_nat (length closes) >=? W) with true in Hsma
    by (symmetry; apply Z.geb_le; lia).
  rewrite float64_cells_floats in Hsma. simpl in Hsma.
  injection Hsma as <-.
  split; [by rewrite length_fmap, rolling_mean_length|]. split.
  - intros i Hi. rewrite list_lookup_fmap.
    rewrite rolling_mean_early by lia. done.
  - intros i Hi Hilen. rewrite list_lookup_fmap.
    rewrite rolling_mean_full by lia. done.
Qed.

(** C4, amended. For a positive requested window [W] and a close series
    that has at least one bar and fewer than [W] bars,
    [calculate_moving_averages] returns a table with an [SMA_W] column, and
    every cell of that column is [pd.NA]. *)
Theorem calculate_moving_averages_short (df : DataFrame) (windows : list Z)
    (W : Z) (closes : list pyfloat) :
  0 < W → W ∈ windows →
  df_get df "Close" = Some (cell <$> closes) →
  df_len df = length closes →
  (0 < length closes)%nat →
  Z.of_nat (length closes) < W →
  ∃ df',
    calculate_moving_averages df windows = Ok df' ∧
    df_get df' (sma_col W) = Some (replicate (length closes) VNA).
Proof.
  intros HW Hin Hclose Hlen Hpos Hshort.
  destruct (calculate_moving_averages_column df windows W closes)
    as (df' & sma & Hcalc & Hsma & Hlook); [done..|].
  exists df'. split; [done|].
  unfold sma_column in Hsma.
  replace (Z.of_nat (length closes) >=? W) with false in Hsma
    by (symmetry; rewrite Z.geb_leb; apply Z.leb_gt; lia).
  by injection Hsma as <-.
Qed.

(** The frame of [calculate_moving_averages]: the index and every column
    that is not the SMA column of a positive requested window stay. *)
Lemma calculate_moving_averages_frame df df' windows :
  calculate_moving_averages df windows = Ok df' →
  index df' = index df ∧
  (∀ c, (∀ W, W ∈ windows → 0 < W → c ≠ sma_col W) →
        df_get df' c = df_get df c).
Proof.
  unfold calculate_moving_averages. intros Hcalc.
  destruct (df_empty df); [by injection Hcalc as <-|].
  destruct (df_get df "Close") as [closes|]; [|by injection Hcalc as <-].
  destruct (sma_loop_spec _ _ _ _ Hcalc) as (Hidx & Hframe & _).
  split; [done|]. intros c Hc. by apply Hframe.
Qed.

(** C8. The non-positive windows are ignored: the table returned is the
    one returned for the positive windows alone; its index is the input's;
    for a non-positive window [W] the column [SMA_W] is as in the input
    (absent if it was absent); and every column that is not the SMA column
    of a positive requested window is unchanged. *)
Theorem calculate_moving_averages_nonpositive (df df' : DataFrame)
    (windows : list Z) :
  calculate_moving_averages df windows = Ok df' →
  calculate_moving_averages df (filter (λ w, 0 < w) windows) = Ok df' ∧
  index df' = index df ∧
  (∀ W, W ≤ 0 → df_get df' (sma_col W) = df_get df (sma_col W)) ∧
  (∀ c, (∀ W, W ∈ windows → 0 < W → c ≠ sma_col W) →
        df_get df' c = df_get df c).
Proof.
  intros Hcalc.
  destruct (calculate_moving_averages_frame df df' windows Hcalc)
    as (Hidx & Hframe).
  split.
  { unfold calculate_moving_averages in *.
    destruct (df_empty df); [done|].
    destruct (df_get df "Close") as [closes|]; [|done].
    by rewrite <- sma_loop_filter. }
  split; [done|]. split; [|done].
  intros W HW. apply Hframe. intros w _ Hw Heq.
  apply (inj sma_col) in Heq. lia.
Qed.

(** In particular the Close column is not touched. *)
Lemma calculate_moving_averages_keeps_close df df' windows :
  calculate_moving_averages df windows = Ok df' →
  df_get df' "Close" = df_get df "Close".
Proof.
  intros Hcalc.
  destruct (calculate_moving_averages_frame df df' windows Hcalc)
    as (_ & Hframe).
  apply Hframe. intros W _ _ Heq. unfold sma_col in Heq.
  by destruct (pretty W).
Qed.

End moving_averages.

Section moving_averages_examples.

(** The examples are computed with [exact_mean]. *)
#[local] Existing Instance exact_mean.

Lemma calculate_moving_averages_full_windows_witness :
  ∃ df' sma,
    calculate_moving_averages df_three_bars [2] = Ok df' ∧
    df_get df' (sma_col 2) = Some sma ∧
    length sma = length three_closes ∧
    (∀ i : nat, Z.of_nat i < 2 - 1 → sma !! i = Some (cell NaN)) ∧
    (∀ i : nat, 2 - 1 ≤ Z.of_nat i → (i < length three_closes)%nat →
       sma !! i
       = Some (cell (if decide (NaN ∈ slice (S i - Z.to_nat 2) (S i)
                                        three_closes)
                     then NaN
                     else Fin (window_mean (Z.to_nat 2) i three_closes)))).
Proof.
  apply (calculate_moving_averages_full_windows df_three_bars [2] 2
           three_closes).
  - lia.
  - apply list_elem_of_here.
  - reflexivity.
  - reflexivity.
  - simpl. lia.
Defined.

(** C4, as stated, fails on a close series without bars: the table is
    empty, [calculate_moving_averages] returns it as it is, and no [SMA_1]
    column is created although the series is shorter than the window. *)
Lemma calculate_moving_averages_no_bars :
  df_get df_no_bars "Close" = Some [] ∧
  Z.of_nat (df_len df_no_bars) < 1 ∧
  calculate_moving_averages df_no_bars [1] = Ok df_no_bars ∧
  df_get df_no_bars (sma_col 1) = None.
Proof. repeat split. Qed.

Lemma calculate_moving_averages_short_witness :
  ∃ df',
    calculate_moving_averages df_three_bars [5] = Ok df' ∧
    df_get df' (sma_col 5) = Some (replicate (length three_closes) VNA).
Proof.
  apply (calculate_moving_averages_short df_three_bars [5] 5 three_closes).
  - lia.
  - apply list_elem_of_here.
  - reflexivity.
  - reflexivity.
  - simpl. lia.
  - simpl. lia.
Defined.

Lemma calculate_moving_averages_nonpositive_witness :
  calculate_moving_averages df_three_bars
    (filter (λ w, 0 < w) [2; 0; -1; 5]) = Ok df_three_bars_sma ∧
  index df_three_bars_sma = index df_three_bars ∧
  (∀ W, W ≤ 0 →
     df_get df_three_bars_sma (sma_col W) = df_get df_three_bars (sma_col W)) ∧
  (∀ c, (∀ W, W ∈ [2; 0; -1; 5] → 0 < W → c ≠ sma_col W) →
        df_get df_three_bars_sma c = df_get df_three_bars c).
Proof.
  apply (calculate_moving_averages_nonpositive df_three_bars
           df_three_bars_sma [2; 0; -1; 5]).
  reflexivity.
Defined.

End moving_averages_examples.

(** * Screener rows *)

Ltac bind_inv H :=
  repeat match type of H with
         | (mbind _ ?m) = Ok _ =>
             let E := fresh "E" in
             destruct m eqn:E; simpl in H; [|discriminate H]
         end.

Section change_pct.

Lemma Qc_75_50 :
  ((Qc_of_Z 75 / Qc_of_Z 50 - 1) * Qc_of_Z 100)%Qc = Qc_of_Z 50.
Proof. apply Qc_is_canon. reflexivity. Qed.

(** The percent change never raises: the only division is guarded. *)
Lemma change_pct_returns first_close last_close :
  ∃ r, change_pct first_close last_close = Ok r.
Proof.
  unfold change_pct.
  destruct first_close as [[a|]|], last_close as [[b|]|]; simpl; eauto.
  - unfold fnonzero. simpl. case_bool_decide as Ha; simpl; [eauto|].
    destruct (decide (a = 0%Qc)); [done|]. simpl. eauto.
  - unfold fnonzero. simpl. case_bool_decide as Ha; simpl; [eauto|].
    destruct (decide (a = 0%Qc)); [done|]. simpl. eauto.
Qed.

Lemma change_pct_fin (a b : Qc) :
  a ≠ 0%Qc →
  change_pct (Some (Fin a)) (Some (Fin b))
  = Ok (Some (Fin ((b / a - 1) * Qc_of_Z 100))).
Proof.
  intros Ha. unfold change_pct, fnonzero. simpl.
  rewrite bool_decide_eq_false_2 by done. simpl.
  destruct (decide (a = 0%Qc)); [done|]. done.
Qed.

(** C5. When both closes are present and the first is not zero, the
    percent change is [(last_close / first_close - 1) * 100]; from 50 to 75
    it is 50; and when the first close is zero it is missing, whatever the
    last close, and no division error is raised. *)
Theorem change_pct_formula (a b : Qc) :
  a ≠ 0%Qc →
  change_pct (Some (Fin a)) (Some (Fin b))
  = Ok (Some (Fin ((b / a - 1) * Qc_of_Z 100))) ∧
  change_pct (Some (Fin (Qc_of_Z 50))) (Some (Fin (Qc_of_Z 75)))
  = Ok (Some (Fin (Qc_of_Z 50))) ∧
  (∀ last_close, change_pct (Some (Fin 0)) last_close = Ok None).
Proof.
  intros Ha. split; [|split].
  - by apply change_pct_fin.
  - rewrite change_pct_fin by done. by rewrite Qc_75_50.
  - by intros [l|].
Qed.

Lemma change_pct_formula_witness :
  change_pct (Some (Fin (Qc_of_Z 4))) (Some (Fin (Qc_of_Z 5)))
  = Ok (Some (Fin ((Qc_of_Z 5 / Qc_of_Z 4 - 1) * Qc_of_Z 100))) ∧
  change_pct (Some (Fin (Qc_of_Z 50))) (Some (Fin (Qc_of_Z 75)))
  = Ok (Some (Fin (Qc_of_Z 50))) ∧
  (∀ last_close, change_pct (Some (Fin 0)) last_close = Ok None).
Proof. apply (change_pct_formula (Qc_of_Z 4) (Qc_of_Z 5)). done. Defined.

End change_pct.

Section screener.

Context {RM : RollingMean}.

Variable load_price_data : string → string → DataFrame.
Variable today : Z.
Variable period : string.
Variable selected_mas : list Z.

#[local] Abbreviation priced := (has_prices load_price_data period).

Lemma screener_row_ticker ipos_df ticker0 price_df row :
  screener_row today selected_mas ipos_df ticker0 price_df = Ok row →
  Ticker row = ticker0.
Proof.
  unfold screener_row. intros H.
  bind_inv H. destruct a0 as [signals latest]. bind_inv H.
  by injection H as <-.
Qed.

(** The change column of a row is the percent change between the coerced
    first close and the coerced latest close of the price table, and the
    price column is the latter. *)
Lemma screener_row_change_pct ipos_df ticker0 price_df row :
  screener_row today selected_mas ipos_df ticker0 price_df = Ok row →
  ∃ price_df' signals latest c rest first_close,
    calculate_moving_averages price_df (windows selected_mas) = Ok price_df' ∧
    get_ma_signals price_df' (windows selected_mas) = Ok (signals, latest) ∧
    df_get price_df' "Close" = Some (c :: rest) ∧
    _to_scalar c = Ok first_close ∧
    _to_scalar (series_get latest "Close") = Ok (Current_Price row) ∧
    change_pct first_close (Current_Price row) = Ok (Change_pct row).
Proof.
  unfold screener_row. intros H.
  bind_inv H. destruct a0 as [signals latest]. bind_inv H.
  injection H as <-. simpl.
  destruct (df_get a "Close") as [[|c rest]|] eqn:Hclose; try discriminate.
  match goal with Hc : Ok c = Ok _ |- _ => injection Hc as -> end.
  by eexists a, signals, latest, _, rest, _.
Qed.

(** A ticker without price data is passed over: the loop does for the
    whole list what it does for the tickers that have data. *)
Lemma screener_loop_skips ipos_df tickers rows :
  screener_loop load_price_data today period selected_mas ipos_df tickers rows
  = screener_loop load_price_data today period selected_mas ipos_df
      (filter priced tickers) rows.
Proof.
  revert rows. induction tickers as [|t rest IH]; intros rows; [done|].
  destruct (df_empty (load_price_data t period)) eqn:Hempty.
  - rewrite filter_cons_False by (unfold has_prices; congruence).
    simpl. rewrite Hempty. apply IH.
  - rewrite filter_cons_True by done.
    simpl. rewrite Hempty.
    destruct (screener_row _ _ _ _ _); simpl; [apply IH|done].
Qed.

(** When the rows of the tickers that have data can be assembled, the loop
    returns, and it has appended one row for each of these tickers, in
    order. *)
Lemma screener_loop_rows ipos_df tickers rows :
  (∀ t, t ∈ tickers → priced t →
     is_ok (screener_row today selected_mas ipos_df t
              (load_price_data t period)) = true) →
  ∃ new,
    screener_loop load_price_data today period selected_mas ipos_df tickers rows
    = Ok (rows ++ new)%list ∧
    Ticker <$> new = filter priced tickers.
Proof.
  revert rows. induction tickers as [|t rest IH]; intros rows Hok.
  - exists []. by rewrite app_nil_r.
  - simpl. destruct (df_empty (load_price_data t period)) eqn:Hempty.
    + rewrite filter_cons_False by (unfold has_prices; congruence).
      apply IH. intros t' Ht'. apply Hok. by apply list_elem_of_further.
    + rewrite filter_cons_True by done.
      pose proof (Hok t (list_elem_of_here _ _) Hempty) as Hrow.
      destruct (screener_row today selected_mas ipos_df t
                  (load_price_data t period)) as [row|] eqn:Erow; [|done].
      simpl.
      destruct (IH (rows ++ [row])%list) as (new & Hloop & Htickers).
      { intros t' Ht'. apply Hok. by apply list_elem_of_further. }
      exists (row :: new). rewrite Hloop, <- app_assoc. split; [done|].
      rewrite fmap_cons, Htickers. f_equal. by eapply screener_row_ticker.
Qed.

Lemma filter_priced_length tickers :
  length (filter priced tickers)
  = (length tickers - length (filter (λ t, ¬ priced t) tickers))%nat.
Proof.
  induction tickers as [|t rest IH]; [done|].
  pose proof (length_filter (λ t, ¬ priced t) rest) as Hle.
  destruct (decide (priced t)) as [Ht|Ht].
  - rewrite filter_cons_True by done.
    rewrite (filter_cons_False (λ t, ¬ priced t)) by tauto.
    simpl. rewrite IH. lia.
  - rewrite filter_cons_False by done.
    rewrite (filter_cons_True (λ t, ¬ priced t)) by done.
    simpl. rewrite IH. lia.
Qed.


(** C6. A ticker whose price table is empty contributes no row and does
    not stop the run: when the rows of the other tickers can be assembled,
    the loop returns a table whose tickers are, in order, exactly the
    tickers that have price data. In particular, of three tickers of which
    exactly one has no price data, two rows are assembled. *)
Theorem screener_loop_skips_empty (ipos_df : list IpoRecord)
    (tickers : list string) :
  (∀ t, t ∈ tickers → priced t →
     is_ok (screener_row today selected_mas ipos_df t
              (load_price_data t period)) = true) →
  ∃ rows,
    screener_loop load_price_data today period selected_mas ipos_df tickers []
    = Ok rows ∧
    Ticker <$> rows = filter priced tickers ∧
    (∀ t, t ∈ tickers → ¬ priced t → t ∉ Ticker <$> rows) ∧
    (length tickers = 3%nat →
     length (filter (λ t, ¬ priced t) tickers) = 1%nat →
     length rows = 2%nat).
Proof.
  intros Hok.
  destruct (screener_loop_rows ipos_df tickers [] Hok) as (rows & Hloop & Hrows).
  exists rows. split; [done|]. split; [done|]. split.
  - intros t _ Hnot Hin. rewrite Hrows in Hin.
    by apply list_elem_of_filter in Hin as [? _].
  - intros H3 H1.
    rewrite <- (length_fmap Ticker), Hrows, filter_priced_length. lia.
Qed.

End screener.

Section screener_examples.

(** The examples are computed with [exact_mean]. *)
#[local] Existing Instance exact_mean.

Lemma screener_loop_skips_empty_witness :
  ∃ rows,
    screener_loop demo_prices 200 "6mo" [2] three_ipos ["AAA"; "BBB"; "CCC"] []
    = Ok rows ∧
    Ticker <$> rows
    = filter (has_prices demo_prices "6mo") ["AAA"; "BBB"; "CCC"] ∧
    (∀ t, t ∈ ["AAA"; "BBB"; "CCC"] → ¬ has_prices demo_prices "6mo" t →
          t ∉ Ticker <$> rows) ∧
    (length ["AAA"; "BBB"; "CCC"] = 3%nat →
     length (filter (λ t, ¬ has_prices demo_prices "6mo" t)
               ["AAA"; "BBB"; "CCC"]) = 1%nat →
     length rows = 2%nat).
Proof.
  apply (screener_loop_skips_empty demo_prices 200 "6mo" [2] three_ipos).
  intros t Ht Hprices.
  repeat (apply elem_of_cons in Ht as [->|Ht]); [reflexivity| |reflexivity|].
  - discriminate Hprices.
  - by apply elem_of_nil in Ht.
Defined.

End screener_examples.

(** * Manual tickers *)

Section manual_tickers.

Variable today : Z.

#[local] Abbreviation of_ticker t := (λ r : IpoRecord, ticker r = t).

Lemma filter_ticker_absent t (df : list IpoRecord) :
  t ∉ ticker <$> df → filter (of_ticker t) df = [].
Proof.
  intros Hnot. induction df as [|r df IH]; [done|].
  rewrite fmap_cons, not_elem_of_cons in Hnot. destruct Hnot as [Hne Hnot].
  rewrite filter_cons_False by (simpl; congruence). by apply IH.
Qed.

(** The guard of the loop: the table is empty or lacks the ticker. *)
Lemma attach_guard t (df : list IpoRecord) :
  bool_decide (df = []) || negb (bool_decide (t ∈ ticker <$> df))
  = negb (bool_decide (t ∈ ticker <$> df)).
Proof.
  destruct df as [|r df]; [|done].
  by rewrite (bool_decide_eq_false_2 (t ∈ _)) by apply not_elem_of_nil.
Qed.

Lemma attach_manual_cons t0 rest (ipos_df : list IpoRecord) :
  attach_manual today (t0 :: rest) ipos_df
  = if negb (bool_decide (t0 ∈ ticker <$> ipos_df))
    then attach_manual today rest (ipos_df ++ [manual_record today t0])
    else attach_manual today rest ipos_df.
Proof. cbn [attach_manual]. by rewrite attach_guard. Qed.

Lemma filter_ticker_record t t0 :
  filter (of_ticker t) [manual_record today t0]
  = if decide (t0 = t) then [manual_record today t0] else [].
Proof.
  destruct (decide (t0 = t)) as [->|Hne].
  - by rewrite filter_cons_True.
  - by rewrite filter_cons_False.
Qed.

(** The records of one ticker after the loop. *)
Lemma attach_manual_filter manual ipos_df t :
  filter (of_ticker t) (attach_manual today manual ipos_df)
  = if decide (t ∈ ticker <$> ipos_df) then filter (of_ticker t) ipos_df
    else if decide (t ∈ manual) then [manual_record today t] else [].
Proof.
  revert ipos_df. induction manual as [|t0 rest IH]; intros ipos_df.
  - cbn [attach_manual].
    destruct (decide (t ∈ ticker <$> ipos_df)) as [Hin|Hnin]; [done|].
    destruct (decide (t ∈ [])) as [Hnil|_]; [by apply elem_of_nil in Hnil|].
    by apply filter_ticker_absent.
  - rewrite attach_manual_cons.
    destruct (decide (t0 ∈ ticker <$> ipos_df)) as [Hin0|Hnin0].
    + rewrite bool_decide_eq_true_2 by done. cbn [negb]. rewrite IH.
      destruct (decide (t ∈ ticker <$> ipos_df)) as [Hin|Hnin]; [done|].
      assert (t ≠ t0) by congruence.
      destruct (decide (t ∈ rest)) as [Hr|Hr];
        destruct (decide (t ∈ t0 :: rest)) as [Hc|Hc]; try done.
      * exfalso. apply Hc. by apply list_elem_of_further.
      * by apply elem_of_cons in Hc as [?|?].
    + rewrite bool_decide_eq_false_2 by done. cbn [negb]. rewrite IH.
      rewrite fmap_app, filter_app, filter_ticker_record.
      destruct (decide (t0 = t)) as [->|Hne].
      * rewrite filter_ticker_absent by done.
        rewrite decide_True
          by (apply elem_of_app; right; apply list_elem_of_here).
        rewrite (decide_False (P := t ∈ ticker <$> ipos_df)) by done.
        rewrite decide_True by apply list_elem_of_here. done.
      * rewrite app_nil_r.
        destruct (decide (t ∈ ticker <$> ipos_df)) as [Hin|Hnin].
        -- rewrite decide_True; [done|]. apply elem_of_app. by left.
        -- rewrite decide_False.
           2:{ intros [?|Hin]%elem_of_app; [done|].
               apply list_elem_of_singleton in Hin. simpl in Hin. done. }
           destruct (decide (t ∈ rest)) as [Hr|Hr];
             destruct (decide (t ∈ t0 :: rest)) as [Hc|Hc]; try done.
           ++ exfalso. apply Hc. by apply list_elem_of_further.
           ++ by apply elem_of_cons in Hc as [?|?].
Qed.

(** The loop only appends: the records of the IPO table stay, in place. *)
Lemma attach_manual_prefix manual ipos_df :
  ipos_df `prefix_of` attach_manual today manual ipos_df.
Proof.
  revert ipos_df. induction manual as [|t0 rest IH]; intros ipos_df; [done|].
  simpl. destruct (_ || _); [|apply IH].
  etrans; [|apply IH]. by apply prefix_app_r.
Qed.

(** C9. Every manual ticker that the IPO table lacks is added as one new
    record whose IPO date is today's date, and for a manual ticker that the
    table has, the records are the ones it had; all records of the table
    are kept as they were. *)
Theorem attach_manual_merges (manual_tickers : string)
    (ipos_df : list IpoRecord) (t : string) :
  t ∈ manual_list manual_tickers →
  let merged := attach_manual today (manual_list manual_tickers) ipos_df in
  ipos_df `prefix_of` merged ∧
  (t ∉ ticker <$> ipos_df →
     filter (of_ticker t) merged = [manual_record today t] ∧
     ipo_date (manual_record today t) = Some today) ∧
  (t ∈ ticker <$> ipos_df →
     filter (of_ticker t) merged = filter (of_ticker t) ipos_df).
Proof.
  intros Ht merged. split; [apply attach_manual_prefix|]. split.
  - intros Hnin. split; [|done]. unfold merged.
    rewrite attach_manual_filter. by rewrite decide_False, decide_True.
  - intros Hin. unfold merged.
    rewrite attach_manual_filter. by rewrite decide_True.
Qed.

End manual_tickers.

Lemma attach_manual_merges_witness :
  let merged :=
    attach_manual 1000 (manual_list " aapl, arm") (demo_data 1000) in
  demo_data 1000 `prefix_of` merged ∧
  ("AAPL" ∉ ticker <$> demo_data 1000 →
     filter (λ r, ticker r = "AAPL") merged = [manual_record 1000 "AAPL"] ∧
     ipo_date (manual_record 1000 "AAPL") = Some 1000) ∧
  ("AAPL" ∈ ticker <$> demo_data 1000 →
     filter (λ r, ticker r = "AAPL") merged
     = filter (λ r, ticker r = "AAPL") (demo_data 1000)).
Proof.
  apply (attach_manual_merges 1000 " aapl, arm" (demo_data 1000) "AAPL").
  vm_compute. apply list_elem_of_here.
Defined.

(** * The IPO table *)

Section ipo_table.

Lemma drop_duplicates_elem r df : r ∈ drop_duplicates df → r ∈ df.
Proof.
  induction df as [|r0 df IH]; [done|]. cbn [drop_duplicates].
  case_bool_decide.
  - intros Hr. apply list_elem_of_further. by apply IH.
  - intros [->|Hr]%elem_of_cons; [apply list_elem_of_here|].
    apply list_elem_of_further. by apply IH.
Qed.

(** No ticker is lost. *)
Lemma drop_duplicates_tickers t df :
  t ∈ ticker <$> df → t ∈ ticker <$> drop_duplicates df.
Proof.
  induction df as [|r0 df IH]; [done|]. cbn [drop_duplicates].
  rewrite fmap_cons. intros [->|Ht]%elem_of_cons.
  - case_bool_decide; [by apply IH|]. rewrite fmap_cons. apply list_elem_of_here.
  - case_bool_decide; [by apply IH|].
    rewrite fmap_cons. apply list_elem_of_further. by apply IH.
Qed.

(** At most one record per ticker is left. *)
Lemma drop_duplicates_NoDup df : NoDup (ticker <$> drop_duplicates df).
Proof.
  induction df as [|r0 df IH]; [apply NoDup_nil_2|]. cbn [drop_duplicates].
  case_bool_decide as Hin; [done|].
  rewrite fmap_cons. apply NoDup_cons. split; [|done].
  intros Hr0. apply Hin.
  apply list_elem_of_fmap in Hr0 as (r & -> & Hr).
  apply list_elem_of_fmap. exists r. split; [done|].
  by apply drop_duplicates_elem.
Qed.

(** The record left for a ticker is its last one. *)
Lemma drop_duplicates_last r df :
  r ∈ drop_duplicates df →
  ∃ l1 l2, df = (l1 ++ r :: l2)%list ∧ ticker r ∉ ticker <$> l2.
Proof.
  induction df as [|r0 df IH]; [by intros ?%elem_of_nil|].
  cbn [drop_duplicates]. case_bool_decide as Hin.
  - intros Hr. destruct (IH Hr) as (l1 & l2 & -> & Hl2).
    by exists (r0 :: l1), l2.
  - intros [->|Hr]%elem_of_cons.
    + by exists [], df.
    + destruct (IH Hr) as (l1 & l2 & -> & Hl2). by exists (r0 :: l1), l2.
Qed.

#[local] Instance date_le_trans : Transitive date_le.
Proof. intros r1 r2 r3. unfold date_le. lia. Qed.

#[local] Instance date_le_total : Total date_le.
Proof. intros r1 r2. unfold date_le. lia. Qed.

Lemma sort_values_dated df :
  Forall (λ r, is_Some (ipo_date r)) df →
  sort_values df = merge_sort date_le df.
Proof.
  intros Hall. unfold sort_values.
  assert (List.filter dated df = df) as ->.
  { induction Hall as [|r df Hr _ IH]; [done|]. simpl.
    unfold dated at 1. rewrite bool_decide_eq_true_2 by done. by rewrite IH. }
  assert (List.filter (λ r, negb (dated r)) df = []) as ->.
  { induction Hall as [|r df Hr _ IH]; [done|]. simpl.
    unfold dated at 1. by rewrite bool_decide_eq_true_2 by done. }
  apply app_nil_r.
Qed.

(** When every record carries a date, the record left for a ticker has the
    most recent IPO date of the ticker's records. *)
Lemma drop_duplicates_most_recent df r r' :
  Forall (λ r, is_Some (ipo_date r)) df →
  r ∈ drop_duplicates (sort_values df) →
  r' ∈ df → ticker r' = ticker r →
  ∃ d d', ipo_date r = Some d ∧ ipo_date r' = Some d' ∧ d' ≤ d.
Proof.
  intros Hall Hr Hr' Hticker.
  rewrite sort_values_dated in Hr by done.
  destruct (drop_duplicates_last _ _ Hr) as (l1 & l2 & Hsplit & Hl2).
  pose proof (StronglySorted_merge_sort date_le df) as Hsorted.
  rewrite Hsplit in Hsorted.
  assert (r ∈ df) as Hrdf.
  { rewrite <- (merge_sort_Permutation date_le df), Hsplit.
    apply elem_of_app. right. apply list_elem_of_here. }
  rewrite Forall_forall in Hall.
  destruct (Hall r Hrdf) as [d Hd], (Hall r' Hr') as [d' Hd'].
  exists d, d'. split; [done|]. split; [done|].
  assert (date_le r' r) as Hle.
  { assert (r' ∈ (l1 ++ r :: l2)%list) as Hin.
    { rewrite <- Hsplit. by rewrite merge_sort_Permutation. }
    apply elem_of_app in Hin as [Hin|Hin].
    - eapply StronglySorted_app_1_elem_of; [done..|apply list_elem_of_here].
    - apply elem_of_cons in Hin as [->|Hin]; [unfold date_le; lia|].
      exfalso. apply Hl2. rewrite <- Hticker.
      apply list_elem_of_fmap. by exists r'. }
  unfold date_le in Hle. by rewrite Hd, Hd' in Hle.
Qed.

(** The table [get_recent_ipos] returns has at most one record per
    ticker. *)
Lemma get_recent_ipos_NoDup today finnhub days_back api_key :
  NoDup (ticker <$> get_recent_ipos today finnhub days_back api_key).
Proof.
  unfold get_recent_ipos.
  match goal with
  | |- context [match ?rs with [] => demo_data today | _ => _ end] =>
      destruct rs as [|r0 rest]
  end; apply drop_duplicates_NoDup.
Qed.

(** C10. The table is meant to keep, for a ticker listed twice, the record
    with the most recent IPO date, but a record without a date wins over a
    dated one: [sort_values] puts the missing date last and
    [drop_duplicates] keeps the last record. For a calendar that lists ABC
    with the date 700 and again without a date, the record left is the
    undated one. *)
Theorem get_recent_ipos_keeps_undated :
  get_recent_ipos 1000 (Some finnhub_abc) 365 (Some "key")
  = [ {| ticker := "ABC"; company := "Abc Corp"; exchange := "NASDAQ";
         ipo_date := None |} ].
Proof. reflexivity. Qed.

End ipo_table.

(** * Further properties of the scalar coercion *)

Section to_scalar_more.

Lemma is_na_scalar_raises v e :
  _is_na_scalar v = Raise e →
  e = ValueError ∧ ∃ xs, v = VIndex xs ∧ length xs ≠ 1%nat.
Proof.
  destruct v as [| | |x|n|b| |xs|xs]; try done.
  unfold _is_na_scalar. simpl.
  destruct xs as [|x1 [|x2 xs]]; try done.
  - simpl. intros [= <-]. split; [done|]. by eexists.
  - simpl. intros [= <-]. split; [done|]. by eexists.
Qed.

Lemma float_or_none_raises v e :
  float_or_none v = Raise e → e ≠ TypeError ∧ e ≠ ValueError.
Proof.
  unfold float_or_none. destruct (py_float v) as [x|e']; [done|].
  destruct e'; try done; by intros [= <-].
Qed.

(** What escapes from [_to_scalar], on the values of [value] (missing
    markers, numbers, objects without a numeric reading, Series and Index
    of these). A [TypeError] never does. A [ValueError] escapes only
    through an Index that does not have exactly one element, met as the
    value itself or as the last element of the value: the truth value of
    the array [pd.isna] returns for it is not defined. (With numpy before
    2.2 the empty Index does not raise either.) *)
Theorem to_scalar_raises_only (v : value) (e : exn) :
  _to_scalar v = Raise e →
  e ≠ TypeError ∧
  (e = ValueError →
   ∃ xs, length xs ≠ 1%nat ∧
         (v = VIndex xs ∨
          ∃ ys, (v = VSeries ys ∨ v = VIndex ys) ∧ last_item ys = VIndex xs)).
Proof.
  unfold _to_scalar. intros H.
  destruct (_is_na_scalar v) as [na|e0] eqn:Hna; simpl in H.
  2:{ injection H as <-.
      apply is_na_scalar_raises in Hna as (-> & xs & -> & Hlen).
      split; [done|]. intros _. exists xs. split; [done|]. by left. }
  destruct na; [done|].
  assert (∀ ys, (v = VSeries ys ∨ v = VIndex ys) →
            (if (length ys =? 0)%nat then Ok None
             else _is_na_scalar (last_item ys) ≫= λ na' : bool,
                    if na' then Ok None else float_or_none (last_item ys))
            = Raise e →
            e ≠ TypeError ∧
            (e = ValueError →
             ∃ xs, length xs ≠ 1%nat ∧
                   (v = VIndex xs ∨
                    ∃ ys, (v = VSeries ys ∨ v = VIndex ys) ∧
                          last_item ys = VIndex xs))) as Hcontainer.
  { intros ys Hv Hys. destruct (length ys =? 0)%nat; [done|].
    destruct (_is_na_scalar (last_item ys)) as [na'|e1] eqn:Hna';
      simpl in Hys.
    - destruct na'; [done|].
      apply float_or_none_raises in Hys as [? ?]. done.
    - injection Hys as <-.
      apply is_na_scalar_raises in Hna' as (-> & xs & Hlast & Hlen).
      split; [done|]. intros _. exists xs. split; [done|].
      right. by exists ys. }
  destruct v as [| | |x|n|b| |ys|ys];
    try (apply float_or_none_raises in H as [? ?]; done).
  - apply (Hcontainer ys); [by left|done].
  - apply (Hcontainer ys); [by right|done].
Qed.

Lemma to_scalar_raises_only_witness :
  ValueError ≠ TypeError ∧
  (ValueError = ValueError →
   ∃ xs, length xs ≠ 1%nat ∧
         (VIndex [num 1; num 2] = VIndex xs ∨
          ∃ ys, (VIndex [num 1; num 2] = VSeries ys ∨
                 VIndex [num 1; num 2] = VIndex ys) ∧
                last_item ys = VIndex xs)).
Proof.
  apply (to_scalar_raises_only (VIndex [num 1; num 2]) ValueError).
  reflexivity.
Defined.

(** A missing scalar, and a Series that holds nothing but missing values
    (an empty Series among them), coerce to missing. *)
Theorem to_scalar_all_missing (v : value) :
  checknull v = true ∨
  (∃ xs, v = VSeries xs ∧ Forall (λ x, checknull x = true) xs) →
  _to_scalar v = Ok None.
Proof.
  intros [Hv|(xs & -> & Hall)]; [by apply to_scalar_missing|].
  unfold _to_scalar. rewrite is_na_scalar_series. simpl.
  replace (Py.all (checknull <$> xs)) with true; [done|].
  symmetry. unfold Py.all. apply forallb_forall. intros b Hb.
  apply in_map_iff in Hb as (x & <- & Hx).
  rewrite Forall_forall in Hall. apply Hall. by apply list_elem_of_In.
Qed.

Lemma to_scalar_all_missing_witness :
  _to_scalar (VSeries [VNone; VNA; cell NaN]) = Ok None.
Proof.
  apply (to_scalar_all_missing (VSeries [VNone; VNA; cell NaN])).
  right. eexists. split; [reflexivity|].
  repeat constructor.
Defined.

(** On a scalar that is not an integer beyond the range of a float, and on
    a Series whose last element is such a scalar, the coercion returns a
    float or missing: nothing is raised. *)
Theorem to_scalar_returns (v : value) :
  (∀ n, v = VInt n → Z.abs n < float_int_limit) →
  (∀ xs, v = VSeries xs →
     is_container (last_item xs) = false ∧
     ∀ n, last_item xs = VInt n → Z.abs n < float_int_limit) →
  (∀ xs, v ≠ VIndex xs) →
  ∃ r, _to_scalar v = Ok r.
Proof.
  intros Hint Hseries Hindex.
  destruct (is_container v) eqn:Hc.
  - destruct v as [| | |x|n|b| |xs|xs]; try done.
    + destruct (Hseries xs eq_refl) as [Hlast Hn].
      by apply to_scalar_series_returns.
    + by destruct (Hindex xs).
  - by apply to_scalar_scalar_returns.
Qed.

Lemma to_scalar_returns_witness :
  ∃ r, _to_scalar (VSeries [VObject; VInt 7]) = Ok r.
Proof.
  apply (to_scalar_returns (VSeries [VObject; VInt 7])).
  - intros n H. discriminate H.
  - intros xs H. injection H as <-. split; [reflexivity|].
    intros n Hn. injection Hn as <-. reflexivity.
  - intros xs H. discriminate H.
Defined.

End to_scalar_more.

(** * Further properties of the indicators *)

Section indicators_more.

Context {RM : RollingMean}.

Lemma signals_loop_inv latest close ws s0 s :
  signals_loop latest close ws s0 = Ok s →
  ∀ w,
    (w ∈ ws →
     ∃ c m, _to_scalar close = Ok c ∧
            _to_scalar (series_get latest (sma_col w)) = Ok m ∧
            s !! w = Some (classify c m)) ∧
    (w ∉ ws → s !! w = s0 !! w).
Proof.
  revert s0. induction ws as [|w0 ws IH]; intros s0 Hloop w.
  - injection Hloop as <-. split; [by intros ?%elem_of_nil|done].
  - simpl in Hloop.
    destruct (_to_scalar close) as [c|] eqn:Hc; [|done]. simpl in Hloop.
    destruct (_to_scalar (series_get latest (sma_col w0))) as [m0|] eqn:Hm0;
      [|done].
    simpl in Hloop. destruct (IH _ Hloop w) as [Hin Hout]. split.
    + intros Hw. destruct (decide (w ∈ ws)) as [Hws|Hws]; [by apply Hin|].
      apply elem_of_cons in Hw as [->|Hw]; [|done].
      exists c, m0. rewrite Hout by done. by rewrite lookup_insert_eq.
    + intros Hw. apply not_elem_of_cons in Hw as [Hne Hw].
      rewrite Hout by done. by rewrite lookup_insert_ne.
Qed.

Lemma classify_values c m : classify c m ∈ ["above"; "below"; "n/a"].
Proof.
  unfold classify. destruct c as [x|], m as [y|];
    try destruct (fgt x y); set_solver.
Qed.

(** The signals [get_ma_signals] returns for a table with bars have
    exactly the requested windows as keys, each with one of the three
    labels, and come with the last row of the table. *)
Theorem get_ma_signals_keys (df : DataFrame) (ws : list Z)
    (signals : gmap Z string) (latest : gmap string value) :
  df_empty df = false →
  get_ma_signals df ws = Ok (signals, latest) →
  latest = iloc_last df ∧
  (∀ w, is_Some (signals !! w) ↔ w ∈ ws) ∧
  (∀ w s, signals !! w = Some s → s ∈ ["above"; "below"; "n/a"]).
Proof.
  intros Hne Hget. unfold get_ma_signals in Hget. rewrite Hne in Hget.
  bind_inv Hget. injection Hget as <- <-.
  pose proof (signals_loop_inv _ _ _ _ _ E) as Hinv.
  split; [done|]. split.
  - intros w. destruct (Hinv w) as [Hin Hout]. split.
    + intros Hsome. destruct (decide (w ∈ ws)) as [|Hnin]; [done|].
      rewrite Hout, lookup_empty in Hsome by done. by destruct Hsome.
    + intros Hw. destruct (Hin Hw) as (c & m & _ & _ & ->). by eexists.
  - intros w s Hs. destruct (Hinv w) as [Hin Hout].
    destruct (decide (w ∈ ws)) as [Hw|Hw].
    + destruct (Hin Hw) as (c & m & _ & _ & Hlook).
      rewrite Hlook in Hs. injection Hs as <-. apply classify_values.
    + rewrite Hout, lookup_empty in Hs by done. done.
Qed.

Lemma get_ma_signals_keys_witness :
  iloc_last df_close_105 = iloc_last df_close_105 ∧
  (∀ w, is_Some (({[ 10 := "above" ]} : gmap Z string) !! w) ↔ w ∈ [10]) ∧
  (∀ w s, ({[ 10 := "above" ]} : gmap Z string) !! w = Some s →
          s ∈ ["above"; "below"; "n/a"]).
Proof.
  apply (get_ma_signals_keys df_close_105 [10]); reflexivity.
Defined.

Lemma last_item_lookup (xs : list value) x :
  xs !! (length xs - 1)%nat = Some x → last_item xs = x.
Proof.
  intros Hx. pose proof (lookup_lt_Some _ _ _ Hx) as Hlt.
  rewrite <- (take_ge xs (S (length xs - 1))) by lia.
  rewrite (take_S_r _ _ _ Hx). apply last_item_snoc.
Qed.

(** The columns of the table [calculate_moving_averages] returns for a
    table with bars and a Close column. *)
Lemma calculate_moving_averages_columns df df' ws closes :
  (0 < df_len df)%nat →
  df_get df "Close" = Some closes →
  calculate_moving_averages df ws = Ok df' →
  ∀ w, w ∈ ws → 0 < w →
    ∃ col, sma_column (df_len df) closes w = Ok col ∧
           df_get df' (sma_col w) = Some col.
Proof.
  intros Hlen Hclose Hcalc. unfold calculate_moving_averages in Hcalc.
  rewrite (df_empty_false df _ Hclose), Hclose in Hcalc by done.
  by destruct (sma_loop_spec _ _ _ _ Hcalc) as (_ & _ & Hcols).
Qed.

Lemma slice_fins_no_nan (qs : list Qc) lo hi :
  NaN ∉ slice lo hi (Fin <$> qs).
Proof.
  unfold slice. intros Hin.
  assert (NaN ∈ Fin <$> qs) as Hfin.
  { eapply elem_of_sublist; [done|].
    etrans; [apply sublist_take|apply sublist_drop]. }
  by apply list_elem_of_fmap in Hfin as (q & ? & _).
Qed.

(** The last cell of the column computed for a window on finite closes. *)
Lemma sma_column_last (qs : list Qc) (w : Z) col :
  0 < w → (0 < length qs)%nat →
  sma_column (length qs) ((λ q, cell (Fin q)) <$> qs) w = Ok col →
  last_item col
  = if decide (w ≤ Z.of_nat (length qs))
    then cell (Fin (window_mean (Z.to_nat w) (length qs - 1) (Fin <$> qs)))
    else VNA.
Proof.
  intros Hw Hlen Hcol. unfold sma_column in Hcol.
  destruct (decide (w ≤ Z.of_nat (length qs))) as [Hle|Hgt].
  - replace (Z.of_nat (length qs) >=? w) with true in Hcol
      by (symmetry; apply Z.geb_le; lia).
    unfold rolling_mean_series in Hcol.
    replace ((λ q, cell (Fin q)) <$> qs) with (cell <$> (Fin <$> qs)) in Hcol
      by (by rewrite <- list_fmap_compose).
    rewrite float64_cells_floats in Hcol. simpl in Hcol.
    injection Hcol as <-. apply last_item_lookup.
    rewrite length_fmap, rolling_mean_length, length_fmap.
    rewrite list_lookup_fmap.
    rewrite rolling_mean_full by (rewrite ?length_fmap; lia).
    by rewrite decide_False by apply slice_fins_no_nan.
  - replace (Z.of_nat (length qs) >=? w) with false in Hcol
      by (symmetry; rewrite Z.geb_leb; apply Z.leb_gt; lia).
    injection Hcol as <-. apply last_item_lookup.
    rewrite length_replicate. apply lookup_replicate_2. lia.
Qed.

(** End to end on finite closes: [calculate_moving_averages] followed by
    [get_ma_signals] returns, and the signal of a requested window [W] is
    'n/a' exactly when the history is shorter than [W]; otherwise it is
    'above' when the last close is strictly greater than the number
    pandas' rolling mean holds for the last window, and 'below' when it is
    not. *)
Theorem latest_signal_end_to_end (df : DataFrame) (ws : list Z) (W : Z)
    (earlier : list Qc) (last : Qc) :
  let closes := (earlier ++ [last])%list in
  Forall (λ w, 0 < w) ws → W ∈ ws →
  df_get df "Close" = Some ((λ q, cell (Fin q)) <$> closes) →
  df_len df = length closes →
  ∃ df' signals latest,
    calculate_moving_averages df ws = Ok df' ∧
    get_ma_signals df' ws = Ok (signals, latest) ∧
    signals !! W
    = Some (if decide (W ≤ Z.of_nat (length closes))
            then if decide (window_mean (Z.to_nat W) (length closes - 1)
                              (Fin <$> closes) < last)%Qc
                 then "above" else "below"
            else "n/a").
Proof.
  intros closes Hpos HW Hclose Hlen.
  assert (0 < length closes)%nat as Hn
    by (unfold closes; rewrite length_app; simpl; lia).
  rewrite Forall_forall in Hpos.
  (* the table with the averages *)
  assert (∃ df', calculate_moving_averages df ws = Ok df') as [df' Hcalc].
  { unfold calculate_moving_averages.
    rewrite (df_empty_false df _ Hclose), Hclose by lia.
    apply (sma_loop_returns _ (Fin <$> closes)).
    rewrite <- (float64_cells_floats (Fin <$> closes)).
    by rewrite <- list_fmap_compose. }
  pose proof (calculate_moving_averages_columns df df' ws _
                ltac:(lia) Hclose Hcalc) as Hcols.
  pose proof (calculate_moving_averages_keeps_close _ _ _ Hcalc) as Hkeep.
  rewrite Hclose in Hkeep.
  destruct (calculate_moving_averages_frame _ _ _ Hcalc) as [Hidx _].
  assert (df_empty df' = false) as Hne.
  { apply (df_empty_false df' _ Hkeep). unfold df_len in *. rewrite Hidx. lia. }
  (* the cells of the latest row *)
  assert (_to_scalar (series_get (iloc_last df') "Close")
          = Ok (Some (Fin last))) as Hc.
  { unfold series_get, iloc_last. rewrite lookup_fmap.
    unfold df_get in Hkeep. rewrite Hkeep. simpl.
    unfold closes. rewrite fmap_app. simpl. by rewrite last_item_snoc. }
  assert (∀ w, w ∈ ws →
            _to_scalar (series_get (iloc_last df') (sma_col w))
            = Ok (if decide (w ≤ Z.of_nat (length closes))
                  then Some (Fin (window_mean (Z.to_nat w)
                                    (length closes - 1) (Fin <$> closes)))
                  else None)) as Hma.
  { intros w Hw. pose proof (Hpos w Hw) as Hwpos.
    destruct (Hcols w Hw Hwpos) as (col & Hcol & Hlook).
    rewrite Hlen in Hcol.
    pose proof (sma_column_last closes w col Hwpos Hn Hcol) as Hlast.
    unfold series_get, iloc_last. rewrite lookup_fmap.
    unfold df_get in Hlook. rewrite Hlook. simpl. rewrite Hlast.
    by destruct (decide (w ≤ Z.of_nat (length closes))). }
  destruct (signals_loop_spec (iloc_last df') _ _ ws ∅ Hc) as (s & Hs & Hlook).
  { intros w Hw. by rewrite (Hma w Hw). }
  exists df', s, (iloc_last df'). split; [done|]. split.
  { unfold get_ma_signals. rewrite Hne, Hs. done. }
  rewrite Hlook, decide_True by done. f_equal.
  unfold ma_scalar_of. rewrite (Hma W HW).
  destruct (decide (W ≤ Z.of_nat (length closes))); [|done].
  simpl. by case_bool_decide; destruct (decide (_ < last)%Qc).
Qed.

End indicators_more.

Section indicators_more_examples.

(** The examples are computed with [exact_mean]. *)
#[local] Existing Instance exact_mean.

Lemma latest_signal_end_to_end_witness :
  ∃ df' signals latest,
    calculate_moving_averages df_three_bars [2; 5] = Ok df' ∧
    get_ma_signals df' [2; 5] = Ok (signals, latest) ∧
    signals !! 2
    = Some (if decide (2 ≤ Z.of_nat (length ([Qc_of_Z 10; Qc_of_Z 20]
                                             ++ [Qc_of_Z 60])%list))
            then if decide (window_mean (Z.to_nat 2)
                              (length ([Qc_of_Z 10; Qc_of_Z 20]
                                       ++ [Qc_of_Z 60])%list - 1)
                              (Fin <$> ([Qc_of_Z 10; Qc_of_Z 20]
                                        ++ [Qc_of_Z 60])%list)
                            < Qc_of_Z 60)%Qc
                 then "above" else "below"
            else "n/a").
Proof.
  apply (latest_signal_end_to_end df_three_bars [2; 5] 2
           [Qc_of_Z 10; Qc_of_Z 20] (Qc_of_Z 60)).
  - repeat constructor.
  - apply list_elem_of_here.
  - reflexivity.
  - reflexivity.
Defined.

End indicators_more_examples.

Section moving_averages_more.

Context {RM : RollingMean}.

#[local] Existing Instance sma_col_inj.

Lemma DataFrame_eq (a b : DataFrame) :
  index a = index b → columns a = columns b → a = b.
Proof. destruct a, b. simpl. by intros -> ->. Qed.

Lemma float64_cells_length vs xs :
  float64_cells vs = Ok xs → length xs = length vs.
Proof.
  revert xs. induction vs as [|v vs IH]; intros xs Hxs.
  - by injection Hxs as <-.
  - simpl in Hxs. bind_inv Hxs. injection Hxs as <-.
    simpl. f_equal. by apply IH.
Qed.

Lemma sma_column_length n closes w col :
  sma_column n closes w = Ok col → length closes = n → length col = n.
Proof.
  unfold sma_column, rolling_mean_series. intros Hcol Hlen.
  destruct (Z.of_nat n >=? w).
  - bind_inv Hcol. injection Hcol as <-.
    rewrite length_fmap, rolling_mean_length.
    rewrite <- Hlen. by apply float64_cells_length.
  - injection Hcol as <-. apply length_replicate.
Qed.

(** Whether a column name is the SMA column of a positive window of a
    list. *)
Lemma sma_col_of_dec (ws : list Z) (c : string) :
  {w | w ∈ ws ∧ 0 < w ∧ c = sma_col w} +
  {∀ w, w ∈ ws → 0 < w → c ≠ sma_col w}.
Proof.
  induction ws as [|w0 ws [(w & Hw & Hpos & Hc)|Hnone]].
  - right. by intros w ?%elem_of_nil.
  - left. exists w. split; [by apply list_elem_of_further|done].
  - destruct (decide (0 < w0 ∧ c = sma_col w0)) as [[Hpos Hc]|Hno].
    + left. exists w0. split; [apply list_elem_of_here|done].
    + right. intros w [->|Hw]%elem_of_cons Hpos Hc; [tauto|].
      by apply (Hnone w).
Qed.

(** The loop returns as soon as the column of every positive window can be
    computed. *)
Lemma sma_loop_returns_columns closes ws df :
  (∀ w, w ∈ ws → 0 < w → is_ok (sma_column (df_len df) closes w) = true) →
  ∃ df', sma_loop closes ws df = Ok df'.
Proof.
  revert df. induction ws as [|w0 rest IH]; intros df Hok; [by eexists|].
  destruct (decide (w0 ≤ 0)) as [Hw0|Hw0].
  - rewrite sma_loop_nonpositive by done. apply IH.
    intros w Hw. apply Hok. by apply list_elem_of_further.
  - rewrite sma_loop_positive by lia.
    pose proof (Hok w0 (list_elem_of_here _ _) ltac:(lia)) as Hcol.
    destruct (sma_column (df_len df) closes w0) as [col|]; [|done].
    simpl. apply IH. intros w Hw. rewrite df_len_set. apply Hok.
    by apply list_elem_of_further.
Qed.

(** Two runs of the loop on tables of one size that agree outside the SMA
    columns, for lists with the same positive windows, end in the same
    table. *)
Lemma sma_loop_determined closes ws1 ws2 df1 df2 r1 :
  sma_loop closes ws1 df1 = Ok r1 →
  index df2 = index df1 →
  (∀ w, 0 < w → w ∈ ws2 → w ∈ ws1) →
  (∀ c, (∀ w, w ∈ ws2 → 0 < w → c ≠ sma_col w) →
        columns df2 !! c = columns r1 !! c) →
  sma_loop closes ws2 df2 = Ok r1.
Proof.
  intros Hr1 Hidx Hsub Hrest.
  destruct (sma_loop_spec _ _ _ _ Hr1) as (Hidx1 & Hframe1 & Hcols1).
  assert (df_len df2 = df_len df1) as Hlen by (unfold df_len; by rewrite Hidx).
  destruct (sma_loop_returns_columns closes ws2 df2) as [r2 Hr2].
  { intros w Hw Hpos. rewrite Hlen.
    destruct (Hcols1 w (Hsub w Hpos Hw) Hpos) as (col & -> & _). done. }
  rewrite Hr2. f_equal.
  destruct (sma_loop_spec _ _ _ _ Hr2) as (Hidx2 & Hframe2 & Hcols2).
  apply DataFrame_eq; [congruence|].
  apply map_eq. intros c.
  destruct (sma_col_of_dec ws2 c) as [(w & Hw & Hpos & ->)|Hnone].
  - destruct (Hcols2 w Hw Hpos) as (col2 & Hcol2 & ->).
    destruct (Hcols1 w (Hsub w Hpos Hw) Hpos) as (col1 & Hcol1 & ->).
    rewrite Hlen in Hcol2. congruence.
  - rewrite Hframe2 by done. by apply Hrest.
Qed.

(** Running [calculate_moving_averages] again on its result, with the
    same windows, changes nothing. And the cells of the result depend on
    the windows only through the set of positive windows: a list with the
    same positive windows, in another order, with repetitions or with
    other non-positive windows, gives a table with the same index and,
    under every column name, the same cells. (The order in which pandas
    lays out the new columns follows the order of the windows; the
    statement is about the cells looked up by name.) *)
Theorem calculate_moving_averages_idempotent (df df' : DataFrame)
    (ws : list Z) :
  calculate_moving_averages df ws = Ok df' →
  calculate_moving_averages df' ws = Ok df' ∧
  (∀ ws', (∀ w, 0 < w → (w ∈ ws ↔ w ∈ ws')) →
          ∃ df'', calculate_moving_averages df ws' = Ok df'' ∧
                  index df'' = index df' ∧
                  ∀ c, df_get df'' c = df_get df' c).
Proof.
  intros Hcalc.
  pose proof (calculate_moving_averages_keeps_close _ _ _ Hcalc) as Hkeep.
  destruct (calculate_moving_averages_frame _ _ _ Hcalc) as [Hidx _].
  unfold calculate_moving_averages in *.
  destruct (df_empty df) eqn:Hempty.
  { injection Hcalc as <-. rewrite Hempty. eauto. }
  destruct (df_get df "Close") as [closes|] eqn:Hclose.
  2:{ injection Hcalc as <-. rewrite Hempty, Hclose. eauto. }
  destruct (sma_loop_spec _ _ _ _ Hcalc) as (_ & Hframe & _).
  split.
  - rewrite Hkeep.
    replace (df_empty df') with false.
    2:{ symmetry. apply (df_empty_false df' closes Hkeep).
        unfold df_empty in Hempty. apply orb_false_iff in Hempty as [Hn _].
        apply Nat.eqb_neq in Hn. unfold df_len in *. rewrite Hidx. lia. }
    by apply (sma_loop_determined closes ws ws df df').
  - intros ws' Hsame. exists df'. split; [|done].
    apply (sma_loop_determined closes ws ws' df df); [done..| |].
    + intros w Hpos Hw. by apply Hsame.
    + intros c Hc. symmetry. apply Hframe.
      intros w Hw Hpos. apply Hc; [|done]. by apply Hsame.
Qed.

(** [calculate_moving_averages] keeps a table well formed: the number of
    bars stays, and every column of the result, the new SMA columns among
    them, has one cell per bar. *)
Theorem calculate_moving_averages_well_formed (df df' : DataFrame)
    (ws : list Z) :
  well_formed df →
  calculate_moving_averages df ws = Ok df' →
  df_len df' = df_len df ∧ well_formed df'.
Proof.
  intros Hwf Hcalc.
  destruct (calculate_moving_averages_frame _ _ _ Hcalc) as [Hidx Hframe].
  assert (df_len df' = df_len df) as Hlen by (unfold df_len; by rewrite Hidx).
  split; [done|]. intros c col Hc. rewrite Hlen.
  destruct (sma_col_of_dec ws c) as [(w & Hw & Hpos & ->)|Hnone].
  - unfold calculate_moving_averages in Hcalc.
    destruct (df_empty df); [injection Hcalc as <-; by apply Hwf in Hc|].
    destruct (df_get df "Close") as [closes|] eqn:Hclose;
      [|injection Hcalc as <-; by apply Hwf in Hc].
    destruct (sma_loop_spec _ _ _ _ Hcalc) as (_ & _ & Hcols).
    destruct (Hcols w Hw Hpos) as (col' & Hcol' & Hlook).
    unfold df_get in Hc. rewrite Hlook in Hc. injection Hc as <-.
    apply (sma_column_length _ _ _ _ Hcol'). by apply Hwf in Hclose.
  - rewrite Hframe in Hc by done. by apply Hwf in Hc.
Qed.

End moving_averages_more.

Section moving_averages_more_examples.

(** The examples are computed with [exact_mean]. *)
#[local] Existing Instance exact_mean.

Lemma calculate_moving_averages_idempotent_witness :
  calculate_moving_averages df_three_bars_sma [2; 0; -1; 5]
  = Ok df_three_bars_sma ∧
  (∀ ws', (∀ w, 0 < w → (w ∈ [2; 0; -1; 5] ↔ w ∈ ws')) →
          ∃ df'', calculate_moving_averages df_three_bars ws' = Ok df'' ∧
                  index df'' = index df_three_bars_sma ∧
                  ∀ c, df_get df'' c = df_get df_three_bars_sma c).
Proof.
  apply (calculate_moving_averages_idempotent df_three_bars
           df_three_bars_sma [2; 0; -1; 5]).
  reflexivity.
Defined.

Lemma calculate_moving_averages_well_formed_witness :
  df_len df_three_bars_sma = df_len df_three_bars ∧
  well_formed df_three_bars_sma.
Proof.
  apply (calculate_moving_averages_well_formed df_three_bars
           df_three_bars_sma [2; 0; -1; 5]).
  - intros c col Hc. unfold df_three_bars, df_get in Hc. simpl in Hc.
    apply lookup_singleton_Some in Hc as [_ <-]. reflexivity.
  - reflexivity.
Defined.

End moving_averages_more_examples.

(** * Further properties of the IPO table *)

Section ipo_table_more.

#[local] Existing Instance date_le_trans.
#[local] Existing Instance date_le_total.

Lemma elem_of_sort_values r df : r ∈ sort_values df ↔ r ∈ df.
Proof.
  unfold sort_values. rewrite elem_of_app, merge_sort_Permutation.
  rewrite !list_elem_of_In, !filter_In, <- !list_elem_of_In.
  destruct (dated r); simpl; tauto.
Qed.

Lemma sort_values_nil_inv df : sort_values df = [] → df = [].
Proof.
  intros Hnil. destruct df as [|r df]; [done|].
  assert (r ∈ sort_values (r :: df)) as Hr
    by (apply elem_of_sort_values, list_elem_of_here).
  rewrite Hnil in Hr. by apply elem_of_nil in Hr.
Qed.

Lemma drop_duplicates_nil_inv df : drop_duplicates df = [] → df = [].
Proof.
  intros Hnil. destruct df as [|r df]; [done|].
  assert (ticker r ∈ ticker <$> drop_duplicates (r :: df)) as Hr.
  { apply drop_duplicates_tickers. rewrite fmap_cons. apply list_elem_of_here. }
  rewrite Hnil in Hr. by apply elem_of_nil in Hr.
Qed.

(** The records the table is built from: those of the calendar, or the
    demo list when there are none. *)
Lemma get_recent_ipos_records today finnhub days_back api_key :
  ∃ records,
    records ≠ [] ∧
    get_recent_ipos today finnhub days_back api_key
    = drop_duplicates (sort_values records) ∧
    (records = demo_data today ∨
     ∃ ipo_calendar calendar,
       finnhub = Some ipo_calendar ∧
       str_or api_key "" ≠ "" ∧
       ipo_calendar (today - days_back) today = Ok calendar ∧
       calendar_records calendar [] = Ok records).
Proof.
  unfold get_recent_ipos.
  destruct finnhub as [ipo_calendar|]; [|by exists (demo_data today); eauto].
  destruct (decide (str_or api_key "" = "")) as [|Hkey];
    [by exists (demo_data today); eauto|].
  destruct (ipo_calendar (today - days_back) today) as [calendar|] eqn:Hcal;
    simpl; [|by exists (demo_data today); eauto].
  destruct (calendar_records calendar []) as [[|r rs]|] eqn:Hrec;
    [by exists (demo_data today); eauto| |by exists (demo_data today); eauto].
  exists (r :: rs). split; [done|]. split; [done|].
  right. by exists ipo_calendar, calendar.
Qed.

(** [get_recent_ipos] never returns an empty table: without live records
    the demo list stands in, and removing duplicates keeps a record of
    every ticker. *)
Theorem get_recent_ipos_nonempty today finnhub days_back api_key :
  get_recent_ipos today finnhub days_back api_key ≠ [].
Proof.
  destruct (get_recent_ipos_records today finnhub days_back api_key)
    as (records & Hne & -> & _).
  intros Hnil. apply Hne.
  by apply sort_values_nil_inv, drop_duplicates_nil_inv.
Qed.

Lemma calendar_records_app calendar acc :
  calendar_records calendar acc
  = rs ← calendar_records calendar []; Ok (acc ++ rs)%list.
Proof.
  revert acc. induction calendar as [|row rest IH]; intros acc.
  - simpl. by rewrite app_nil_r.
  - simpl. destruct (decide (str_or (symbol row) "" = "")); [apply IH|].
    destruct (negb _); [apply IH|].
    destruct (match date row with
              | DateAbsent => Ok None
              | DateText (Some day) => Ok (Some day)
              | DateText None => Raise ValueError
              end) as [d|]; simpl; [|done].
    rewrite IH. rewrite (IH [_]).
    destruct (calendar_records rest []); simpl; [|done].
    by rewrite <- app_assoc.
Qed.

(** A row that is admitted and whose date cannot be read makes the loop
    over the calendar raise. *)
Lemma calendar_records_bad_date calendar row acc :
  row ∈ calendar → admitted row → date row = DateText None →
  is_ok (calendar_records calendar acc) = false.
Proof.
  intros Hrow [Hsym Hexch] Hdate. revert acc.
  induction calendar as [|row0 rest IH]; intros acc;
    [by apply elem_of_nil in Hrow|].
  apply elem_of_cons in Hrow as [<-|Hrow].
  - cbn [calendar_records]. destruct (decide _) as [|_]; [done|].
    rewrite Hexch, Hdate. done.
  - cbn [calendar_records]. destruct (decide _); [by apply IH|].
    destruct (negb _); [by apply IH|].
    destruct (match date row0 with
              | DateAbsent => Ok None
              | DateText (Some day) => Ok (Some day)
              | DateText None => Raise ValueError
              end); simpl; [by apply IH|done].
Qed.

(** One admitted row with an unreadable date discards the whole calendar:
    the table is the one returned without a client, the demo table, however
    many good rows the calendar has. *)
Theorem get_recent_ipos_bad_date today days_back api_key ipo_calendar
    calendar row :
  ipo_calendar (today - days_back) today = Ok calendar →
  row ∈ calendar → admitted row → date row = DateText None →
  get_recent_ipos today (Some ipo_calendar) days_back api_key
  = get_recent_ipos today None days_back api_key.
Proof.
  intros Hcal Hrow Hadm Hdate. unfold get_recent_ipos.
  destruct (decide _); [done|]. rewrite Hcal. simpl.
  pose proof (calendar_records_bad_date calendar row [] Hrow Hadm Hdate) as H.
  by destruct (calendar_records calendar []).
Qed.

Lemma get_recent_ipos_bad_date_witness :
  get_recent_ipos 1000 (Some finnhub_bad_date) 365 (Some "key")
  = get_recent_ipos 1000 None 365 (Some "key").
Proof.
  apply (get_recent_ipos_bad_date 1000 365 (Some "key") finnhub_bad_date
           calendar_bad_date
           {| symbol := Some "XYZ"; name := None;
              row_exchange := Some "nyse"; date := DateText None |}).
  - reflexivity.
  - apply list_elem_of_further, list_elem_of_here.
  - split; [discriminate|reflexivity].
  - reflexivity.
Defined.

Lemma drop_duplicates_sublist df : drop_duplicates df `sublist_of` df.
Proof.
  induction df as [|r df IH]; [constructor|]. cbn [drop_duplicates].
  case_bool_decide; by constructor.
Qed.

Lemma StronglySorted_sublist {A} (R : relation A) (l k : list A) :
  l `sublist_of` k → StronglySorted R k → StronglySorted R l.
Proof.
  induction 1 as [|x l k Hsub IH|x l k Hsub IH]; intros Hk.
  - constructor.
  - apply StronglySorted_cons in Hk as [Hx Hk].
    apply StronglySorted_cons. split; [|by apply IH].
    rewrite Forall_forall in Hx |- *. intros y Hy.
    apply Hx. by eapply elem_of_sublist.
  - apply StronglySorted_cons in Hk as [_ Hk]. by apply IH.
Qed.

(** The table comes ordered by IPO date: first the dated records, in
    ascending order of their dates, then the records without a date. *)
Theorem get_recent_ipos_ordered today finnhub days_back api_key :
  ∃ ds us,
    get_recent_ipos today finnhub days_back api_key = (ds ++ us)%list ∧
    Forall (λ r, is_Some (ipo_date r)) ds ∧
    StronglySorted date_le ds ∧
    Forall (λ r, ipo_date r = None) us.
Proof.
  destruct (get_recent_ipos_records today finnhub days_back api_key)
    as (records & _ & -> & _).
  pose proof (drop_duplicates_sublist (sort_values records)) as Hsub.
  unfold sort_values at 2 in Hsub.
  apply sublist_app_r in Hsub as (ds & us & Heq & Hds & Hus).
  exists ds, us. split; [done|]. split; [|split].
  - rewrite Forall_forall. intros r Hr.
    pose proof (elem_of_sublist _ _ _ Hr Hds) as Hin.
    rewrite merge_sort_Permutation in Hin.
    apply list_elem_of_In, filter_In in Hin as [_ Hd].
    unfold dated in Hd. by apply bool_decide_eq_true in Hd.
  - eapply StronglySorted_sublist; [done|].
    apply StronglySorted_merge_sort; apply _.
  - rewrite Forall_forall. intros r Hr.
    pose proof (elem_of_sublist _ _ _ Hr Hus) as Hin.
    apply list_elem_of_In, filter_In in Hin as [_ Hd].
    unfold dated in Hd. apply negb_true_iff, bool_decide_eq_false in Hd.
    destruct (ipo_date r); [|done]. destruct Hd. by eexists.
Qed.

Lemma drop_duplicates_most_recent_witness :
  ∃ d d', Some 720 = Some d ∧ Some 700 = Some d' ∧ d' ≤ d.
Proof.
  apply (drop_duplicates_most_recent dated_records
           {| ticker := "ABC"; company := "Abc new"; exchange := "NYSE";
              ipo_date := Some 720 |}
           {| ticker := "ABC"; company := "Abc old"; exchange := "NASDAQ";
              ipo_date := Some 700 |}).
  - repeat constructor; by eexists.
  - vm_compute. apply list_elem_of_further, list_elem_of_here.
  - do 2 apply list_elem_of_further. apply list_elem_of_here.
  - reflexivity.
Defined.

Lemma upper_ascii_idemp c : upper_ascii (upper_ascii c) = upper_ascii c.
Proof. by destruct c as [[] [] [] [] [] [] [] []]. Qed.

Lemma upper_idemp s : upper (upper s) = upper s.
Proof.
  induction s as [|c s IH]; [done|].
  simpl. by rewrite upper_ascii_idemp, IH.
Qed.

Lemma calendar_records_upper calendar acc records :
  calendar_records calendar acc = Ok records →
  Forall (λ r, upper (ticker r) = ticker r) acc →
  Forall (λ r, upper (ticker r) = ticker r) records.
Proof.
  revert acc. induction calendar as [|row rest IH]; intros acc Hrec Hacc.
  - by injection Hrec as <-.
  - cbn [calendar_records] in Hrec.
    destruct (decide _); [by eapply IH|].
    destruct (negb _); [by eapply IH|].
    bind_inv Hrec. eapply IH; [done|].
    apply Forall_app. split; [done|].
    apply Forall_singleton. simpl. apply upper_idemp.
Qed.

Lemma get_recent_ipos_upper_of today finnhub days_back api_key r :
  r ∈ get_recent_ipos today finnhub days_back api_key →
  upper (ticker r) = ticker r.
Proof.
  destruct (get_recent_ipos_records today finnhub days_back api_key)
    as (records & _ & -> & Hsource).
  intros Hr. apply drop_duplicates_elem in Hr.
  apply (proj1 (elem_of_sort_values _ _)) in Hr.
  destruct Hsource as [->|(ipo_calendar & calendar & _ & _ & _ & Hrec)].
  - unfold demo_data in Hr.
    repeat (apply elem_of_cons in Hr as [->|Hr]; [reflexivity|]).
    by apply elem_of_nil in Hr.
  - apply calendar_records_upper in Hrec; [|constructor].
    rewrite Forall_forall in Hrec. by apply Hrec.
Qed.

(** Every ticker of the table is in upper case, in live and in demo
    mode. *)
Theorem get_recent_ipos_upper today finnhub days_back api_key r :
  r ∈ get_recent_ipos today finnhub days_back api_key →
  upper (ticker r) = ticker r.
Proof. apply get_recent_ipos_upper_of. Qed.

Lemma get_recent_ipos_upper_witness :
  upper (ticker {| ticker := "ABC"; company := "Abc Corp";
                   exchange := "NASDAQ"; ipo_date := None |})
  = ticker {| ticker := "ABC"; company := "Abc Corp";
              exchange := "NASDAQ"; ipo_date := None |}.
Proof.
  apply (get_recent_ipos_upper 1000 (Some finnhub_abc) 365 (Some "key")).
  vm_compute. apply list_elem_of_here.
Defined.

End ipo_table_more.

(** * Further properties of the manual tickers *)

Section manual_list_more.

Lemma py_isspace_upper c : py_isspace (upper_ascii c) = py_isspace c.
Proof. by destruct c as [[] [] [] [] [] [] [] []]. Qed.

Lemma upper_nil_iff s : upper s = "" ↔ s = "".
Proof. by destruct s. Qed.

Lemma lstrip_upper s : lstrip (upper s) = upper (lstrip s).
Proof.
  induction s as [|c s IH]; [done|].
  simpl. rewrite py_isspace_upper. by destruct (py_isspace c).
Qed.

Lemma rstrip_upper s : rstrip (upper s) = upper (rstrip s).
Proof.
  induction s as [|c s IH]; [done|].
  simpl. rewrite IH, py_isspace_upper.
  destruct (decide (rstrip s = "")) as [Hr|Hr].
  - rewrite Hr. simpl. by destruct (py_isspace c).
  - destruct (decide (upper (rstrip s) = "")) as [Hu|Hu]; [|done].
    by apply (proj1 (upper_nil_iff _)) in Hu.
Qed.

Lemma strip_upper s : strip (upper s) = upper (strip s).
Proof. unfold strip. by rewrite lstrip_upper, rstrip_upper. Qed.

(** What [lstrip] returns does not start with a space. *)
Lemma lstrip_head s : lstrip (lstrip s) = lstrip s.
Proof.
  induction s as [|c s IH]; [done|].
  simpl. destruct (py_isspace c) eqn:Hc; [done|]. simpl. by rewrite Hc.
Qed.

Lemma rstrip_idemp s : rstrip (rstrip s) = rstrip s.
Proof.
  induction s as [|c s IH]; [done|].
  simpl. destruct (decide (rstrip s = "")) as [Hr|Hr].
  - destruct (py_isspace c) eqn:Hc; [done|]. simpl. by rewrite Hc.
  - simpl. rewrite IH. by destruct (decide (rstrip s = "")).
Qed.

(** [rstrip] does not touch the head of a string that does not start with
    a space. *)
Lemma lstrip_rstrip s : lstrip s = s → lstrip (rstrip s) = rstrip s.
Proof.
  destruct s as [|c s]; [done|]. simpl.
  destruct (py_isspace c) eqn:Hc.
  - intros Heq. exfalso.
    assert (String.length (lstrip s) ≤ String.length s)%nat as Hle.
    { clear. induction s as [|c s IH]; simpl; [lia|].
      destruct (py_isspace c); simpl; lia. }
    rewrite Heq in Hle. simpl in Hle. lia.
  - intros _. destruct (decide (rstrip s = "")); simpl; by rewrite Hc.
Qed.

Lemma strip_idemp s : strip (strip s) = strip s.
Proof.
  unfold strip.
  rewrite (lstrip_rstrip (lstrip s)) by apply lstrip_head.
  apply rstrip_idemp.
Qed.

Lemma chars_lstrip s c : c ∈ chars (lstrip s) → c ∈ chars s.
Proof.
  induction s as [|c0 s IH]; [done|]. simpl.
  destruct (py_isspace c0); [|done].
  intros Hc. apply list_elem_of_further. by apply IH.
Qed.

Lemma chars_rstrip s c : c ∈ chars (rstrip s) → c ∈ chars s.
Proof.
  induction s as [|c0 s IH]; [done|]. simpl.
  destruct (decide (rstrip s = "")) as [Hr|Hr].
  - destruct (py_isspace c0); [by intros ?%elem_of_nil|].
    simpl. intros Hc%list_elem_of_singleton. subst. apply list_elem_of_here.
  - simpl. intros [->|Hc]%elem_of_cons; [apply list_elem_of_here|].
    apply list_elem_of_further. by apply IH.
Qed.

Lemma chars_upper s c :
  c ∈ chars (upper s) → ∃ c0, c0 ∈ chars s ∧ c = upper_ascii c0.
Proof.
  induction s as [|c0 s IH]; [by intros ?%elem_of_nil|]. simpl.
  intros [->|Hc]%elem_of_cons.
  - exists c0. split; [apply list_elem_of_here|done].
  - destruct (IH Hc) as (c1 & Hc1 & ->). exists c1.
    split; [by apply list_elem_of_further|done].
Qed.

Lemma upper_ascii_comma c : upper_ascii c = ","%char → c = ","%char.
Proof. by destruct c as [[] [] [] [] [] [] [] []]. Qed.

Lemma split_comma_nonempty s : split_comma s ≠ [].
Proof.
  destruct s as [|c s]; [done|]. simpl.
  destruct (decide (c = ","%char)); [done|].
  by destruct (split_comma s).
Qed.

(** No piece of [split(",")] holds a comma. *)
Lemma split_comma_pieces s piece :
  piece ∈ split_comma s → ","%char ∉ chars piece.
Proof.
  revert piece. induction s as [|c s IH]; intros piece.
  - simpl. intros ->%list_elem_of_singleton. apply not_elem_of_nil.
  - simpl. destruct (decide (c = ","%char)) as [->|Hc].
    + intros [->|Hp]%elem_of_cons; [apply not_elem_of_nil|by apply IH].
    + pose proof (split_comma_nonempty s) as Hne.
      destruct (split_comma s) as [|p ps]; [done|].
      intros [->|Hp]%elem_of_cons.
      * simpl. apply not_elem_of_cons. split; [done|].
        apply IH, list_elem_of_here.
      * apply IH. by apply list_elem_of_further.
Qed.

Lemma manual_list_upper manual_tickers t :
  t ∈ manual_list manual_tickers → upper t = t.
Proof.
  unfold manual_list. destruct (decide _); [by intros ?%elem_of_nil|].
  intros (piece & -> & _)%list_elem_of_fmap. apply upper_idemp.
Qed.

(** Every manual ticker the loop sees is normalised: it is not empty, it
    has no white space at either end, it is in upper case and it holds no
    comma. *)
Theorem manual_list_normalised (manual_tickers t : string) :
  t ∈ manual_list manual_tickers →
  t ≠ "" ∧ strip t = t ∧ upper t = t ∧ ","%char ∉ chars t.
Proof.
  unfold manual_list. destruct (decide _); [by intros ?%elem_of_nil|].
  intros (piece & -> & Hpiece)%list_elem_of_fmap.
  apply list_elem_of_In, filter_In in Hpiece as [Hin Hne].
  apply list_elem_of_In in Hin. apply bool_decide_eq_true in Hne.
  split; [|split; [|split]].
  - by rewrite upper_nil_iff.
  - by rewrite strip_upper, strip_idemp.
  - apply upper_idemp.
  - intros (c0 & Hc0 & Hcomma)%chars_upper.
    symmetry in Hcomma. apply upper_ascii_comma in Hcomma as ->.
    apply chars_rstrip, chars_lstrip in Hc0.
    by apply (split_comma_pieces _ _ Hin).
Qed.

Lemma manual_list_normalised_witness :
  "X Y" ≠ "" ∧ strip "X Y" = "X Y" ∧ upper "X Y" = "X Y" ∧
  ","%char ∉ chars "X Y".
Proof.
  apply (manual_list_normalised " aapl, ,msft ,,x y ").
  vm_compute. do 2 apply list_elem_of_further. apply list_elem_of_here.
Defined.

End manual_list_more.

(** * Further properties of the merged table and of the ticker list *)

Section merged_table.

Variable today : Z.

Lemma attach_manual_tickers manual ipos_df t :
  t ∈ ticker <$> attach_manual today manual ipos_df ↔
  t ∈ ticker <$> ipos_df ∨ t ∈ manual.
Proof.
  revert ipos_df. induction manual as [|t0 rest IH]; intros ipos_df.
  - cbn [attach_manual]. rewrite elem_of_nil. tauto.
  - rewrite attach_manual_cons, elem_of_cons.
    destruct (decide (t0 ∈ ticker <$> ipos_df)) as [Hin|Hnin].
    + rewrite bool_decide_eq_true_2 by done. cbn [negb]. rewrite IH.
      split; [tauto|]. intros [?|[->|?]]; tauto.
    + rewrite bool_decide_eq_false_2 by done. cbn [negb]. rewrite IH.
      rewrite fmap_app, elem_of_app. simpl. rewrite list_elem_of_singleton.
      tauto.
Qed.

Lemma attach_manual_NoDup manual ipos_df :
  NoDup (ticker <$> ipos_df) →
  NoDup (ticker <$> attach_manual today manual ipos_df).
Proof.
  revert ipos_df. induction manual as [|t0 rest IH]; intros ipos_df Hnd;
    [done|].
  rewrite attach_manual_cons.
  destruct (decide (t0 ∈ ticker <$> ipos_df)) as [Hin|Hnin].
  - rewrite bool_decide_eq_true_2 by done. by apply IH.
  - rewrite bool_decide_eq_false_2 by done. cbn [negb]. apply IH.
    rewrite fmap_app. apply NoDup_app. split; [done|]. split.
    + intros t Ht ->%list_elem_of_singleton. done.
    + apply NoDup_singleton.
Qed.

Lemma attach_manual_Forall (P : IpoRecord → Prop) manual ipos_df :
  Forall P ipos_df → Forall (λ t, P (manual_record today t)) manual →
  Forall P (attach_manual today manual ipos_df).
Proof.
  revert ipos_df. induction manual as [|t0 rest IH]; intros ipos_df Hdf Hm;
    [done|].
  apply Forall_cons in Hm as [Ht0 Hrest]. cbn [attach_manual].
  destruct (_ || _); apply IH; try done.
  apply Forall_app. split; [done|]. by apply Forall_singleton.
Qed.

(** The table the screener works on, the IPO table with the manual tickers
    attached, has exactly one record for each of its tickers; its tickers
    are those of the IPO table together with the manual ones; and all of
    them are in upper case, so that a manual ticker typed in lower case
    finds the record the IPO table has for it. *)
Theorem merged_table_invariants finnhub days_back api_key manual_tickers :
  let ipos_df := get_recent_ipos today finnhub days_back api_key in
  let merged := attach_manual today (manual_list manual_tickers) ipos_df in
  NoDup (ticker <$> merged) ∧
  (∀ t, t ∈ ticker <$> merged ↔
        t ∈ ticker <$> ipos_df ∨ t ∈ manual_list manual_tickers) ∧
  (∀ r, r ∈ merged → upper (ticker r) = ticker r).
Proof.
  intros ipos_df merged. split; [|split].
  - apply attach_manual_NoDup, get_recent_ipos_NoDup.
  - intros t. apply attach_manual_tickers.
  - assert (Forall (λ r, upper (ticker r) = ticker r) merged) as Hall.
    { apply attach_manual_Forall.
      - rewrite Forall_forall. intros r Hr.
        by eapply get_recent_ipos_upper_of.
      - rewrite Forall_forall. intros t Ht. simpl.
        by apply manual_list_upper in Ht. }
    by rewrite Forall_forall in Hall.
Qed.

Lemma elem_of_unique l x : x ∈ unique l ↔ x ∈ l.
Proof.
  induction l as [|y l IH]; [done|]. cbn [unique].
  rewrite !elem_of_cons, list_elem_of_In, filter_In, <- list_elem_of_In, IH.
  rewrite bool_decide_eq_true. destruct (decide (x = y)); tauto.
Qed.

Lemma NoDup_unique l : NoDup (unique l).
Proof.
  induction l as [|y l IH]; [constructor|]. cbn [unique].
  apply NoDup_cons. split.
  - rewrite list_elem_of_In, filter_In, bool_decide_eq_true. tauto.
  - clear -IH. induction (unique l) as [|z k IHk]; [constructor|].
    apply NoDup_cons in IH as [Hz Hk]. simpl.
    case_bool_decide; [|by apply IHk].
    apply NoDup_cons. split; [|by apply IHk].
    rewrite list_elem_of_In, filter_In, <- list_elem_of_In. tauto.
Qed.

(** The tickers the screener goes through are the tickers of the table,
    each once, in ascending order. *)
Theorem tickers_of_sorted (ipos_df : list IpoRecord) :
  StronglySorted String.le (tickers_of ipos_df) ∧
  NoDup (tickers_of ipos_df) ∧
  (∀ t, t ∈ tickers_of ipos_df ↔ t ∈ ticker <$> ipos_df).
Proof.
  unfold tickers_of. split; [|split].
  - apply StronglySorted_merge_sort; apply _.
  - rewrite merge_sort_Permutation. apply NoDup_unique.
  - intros t. rewrite merge_sort_Permutation. apply elem_of_unique.
Qed.

End merged_table.

(** The table has at most one record per ticker: two records of the table
    with the same ticker are the same record. *)
Theorem get_recent_ipos_unique_tickers today finnhub days_back api_key :
  NoDup (ticker <$> get_recent_ipos today finnhub days_back api_key) ∧
  ∀ i j r r',
    get_recent_ipos today finnhub days_back api_key !! i = Some r →
    get_recent_ipos today finnhub days_back api_key !! j = Some r' →
    ticker r = ticker r' → i = j.
Proof.
  pose proof (get_recent_ipos_NoDup today finnhub days_back api_key) as Hnd.
  split; [done|]. intros i j r r' Hi Hj Heq.
  apply (NoDup_lookup _ i j (ticker r) Hnd).
  - by rewrite list_lookup_fmap, Hi.
  - by rewrite list_lookup_fmap, Hj, Heq.
Qed.

(** * Further properties of the screener rows *)

Section screener_more.

Context {RM : RollingMean}.

Variable load_price_data : string → string → DataFrame.
Variable today : Z.
Variable period : string.
Variable selected_mas : list Z.

#[local] Abbreviation priced := (has_prices load_price_data period).

(** The screener table, when it can be assembled, has one row for each
    ticker of the IPO table that has price data, and no other row; the
    rows come in ascending order of the ticker, each ticker once. *)
Theorem screener_rows_tickers (ipos_df : list IpoRecord) :
  (∀ t, t ∈ ticker <$> ipos_df → priced t →
     is_ok (screener_row today selected_mas ipos_df t
              (load_price_data t period)) = true) →
  ∃ rows,
    screener_rows load_price_data today period selected_mas ipos_df = Ok rows ∧
    (∀ t, t ∈ Ticker <$> rows ↔ t ∈ ticker <$> ipos_df ∧ priced t) ∧
    NoDup (Ticker <$> rows) ∧
    StronglySorted String.le (Ticker <$> rows).
Proof.
  intros Hok. unfold screener_rows.
  destruct (tickers_of_sorted ipos_df) as (Hsorted & Hnd & Helem).
  destruct (screener_loop_rows load_price_data today period selected_mas
              ipos_df (tickers_of ipos_df) []) as (rows & Hloop & Hrows).
  { intros t Ht. apply Hok. by apply Helem. }
  exists rows. split; [done|]. rewrite Hrows. split; [|split].
  - intros t. rewrite list_elem_of_filter, Helem. tauto.
  - by apply NoDup_filter.
  - eapply StronglySorted_sublist; [apply sublist_filter|done].
Qed.

End screener_more.

Section row_metadata.

Context {RM : RollingMean}.

Variable today : Z.
Variable selected_mas : list Z.

(** The metadata of a row are those of the last record the IPO table has
    for the ticker, the only one when tickers are not repeated, and the
    days since the IPO are counted from that record's date. *)
Theorem screener_row_metadata (ipos_df : list IpoRecord) (ticker0 : string)
    (price_df : DataFrame) (row : ScreenerRow) :
  screener_row today selected_mas ipos_df ticker0 price_df = Ok row →
  ∃ r,
    last (filter (λ r, ticker r = ticker0) ipos_df) = Some r ∧
    Ticker row = ticker0 ∧
    Company row = company r ∧
    Exchange row = exchange r ∧
    IPO_Date row = ipo_date r ∧
    (∀ d, ipo_date r = Some d → Days_Since_IPO row = today - d) ∧
    (NoDup (ticker <$> ipos_df) →
     ∀ r', r' ∈ ipos_df → ticker r' = ticker0 → r' = r).
Proof.
  unfold screener_row. intros H.
  bind_inv H. destruct a0 as [signals latest]. bind_inv H.
  injection H as <-. simpl.
  assert (List.filter (λ r, bool_decide (ticker r = ticker0)) ipos_df
          = filter (λ r, ticker r = ticker0) ipos_df) as Hfilter.
  { clear. induction ipos_df as [|r l IH]; [done|]. simpl.
    rewrite IH. case_bool_decide.
    - by rewrite filter_cons_True.
    - by rewrite filter_cons_False. }
  rewrite Hfilter in *.
  destruct (last (filter (λ r, ticker r = ticker0) ipos_df)) as [r|] eqn:Hlast;
    [|done].
  match goal with Hr : Ok r = Ok _ |- _ => injection Hr as <- end.
  exists r. split; [done|]. repeat (split; [done|]). split.
  - intros d Hd.
    match goal with Hd' : context [ipo_date r] |- _ =>
      rewrite Hd in Hd'; by injection Hd' as <- end.
  - intros Hnd r' Hr' Ht'.
    apply last_Some in Hlast as [l Hl].
    assert (r ∈ ipos_df ∧ ticker r = ticker0) as [Hr Ht].
    { assert (r ∈ filter (λ r, ticker r = ticker0) ipos_df) as Hin
        by (rewrite Hl; apply elem_of_app; right; apply list_elem_of_here).
      apply list_elem_of_filter in Hin. tauto. }
    apply list_elem_of_lookup in Hr as [i Hi], Hr' as [j Hj].
    assert (i = j) as ->; [|congruence].
    apply (NoDup_lookup _ i j ticker0 Hnd).
    + by rewrite list_lookup_fmap, Hi; simpl; rewrite Ht.
    + by rewrite list_lookup_fmap, Hj; simpl; rewrite Ht'.
Qed.

End row_metadata.

Section row_metadata_examples.

(** The examples are computed with [exact_mean]. *)
#[local] Existing Instance exact_mean.

Lemma screener_row_metadata_witness :
  ∃ r,
    last (filter (λ r, ticker r = "AAA") three_ipos) = Some r ∧
    Ticker row_aaa = "AAA" ∧
    Company row_aaa = company r ∧
    Exchange row_aaa = exchange r ∧
    IPO_Date row_aaa = ipo_date r ∧
    (∀ d, ipo_date r = Some d → Days_Since_IPO row_aaa = 200 - d) ∧
    (NoDup (ticker <$> three_ipos) →
     ∀ r', r' ∈ three_ipos → ticker r' = "AAA" → r' = r).
Proof.
  apply (screener_row_metadata 200 [2] three_ipos "AAA" df_three_bars).
  reflexivity.
Defined.

Lemma screener_rows_tickers_witness :
  ∃ rows,
    screener_rows demo_prices 200 "6mo" [2] three_ipos = Ok rows ∧
    (∀ t, t ∈ Ticker <$> rows ↔
          t ∈ ticker <$> three_ipos ∧ has_prices demo_prices "6mo" t) ∧
    NoDup (Ticker <$> rows) ∧
    StronglySorted String.le (Ticker <$> rows).
Proof.
  apply (screener_rows_tickers demo_prices 200 "6mo" [2] three_ipos).
  intros t Ht Hprices. unfold three_ipos in Ht. simpl in Ht.
  repeat (apply elem_of_cons in Ht as [->|Ht]); [reflexivity| |reflexivity|].
  - discriminate Hprices.
  - by apply elem_of_nil in Ht.
Defined.

End row_metadata_examples.

(** * The status and the percentage of a window *)

Section status_and_percentage.

Lemma pct_sign (l m : Qc) :
  (0 < m)%Qc → (0 < (l / m - 1) * Qc_of_Z 100)%Qc ↔ (m < l)%Qc.
Proof.
  intros Hm.
  assert (0 < Qc_of_Z 100)%Qc as H100 by (rewrite <- Z2Qc_inj_0; by apply Z2Qc_inj_lt).
  assert (m ≠ 0%Qc) as Hm0 by (intros ->; by apply (irreflexivity Qclt 0%Qc)).
  rewrite <- (Qcmult_0_l (Qc_of_Z 100)) at 1.
  rewrite <- (Qcmult_lt_mono_pos_r _ _ _ H100).
  unfold Qcminus. rewrite <- Qclt_minus_iff.
  rewrite (Qcmult_lt_mono_pos_r _ _ _ Hm).
  by rewrite Qcmult_1_l, (Qcmult_comm (l / m)), Qcmult_div_r.
Qed.

Lemma ma_cells_step latest last_close signals w rest cells :
  ma_cells latest last_close signals (w :: rest) cells
  = sma_scalar ← _to_scalar (series_get latest (sma_col w));
    pct ← vs_pct sma_scalar last_close;
    ma_cells latest last_close signals rest
      (<[w := (pct, default "n/a" (signals !! w))]> cells).
Proof. done. Qed.

Lemma ma_cells_inv latest last_close signals ws cells0 cells :
  ma_cells latest last_close signals ws cells0 = Ok cells →
  ∀ w,
    (w ∈ ws →
     ∃ m pct, _to_scalar (series_get latest (sma_col w)) = Ok m ∧
              vs_pct m last_close = Ok pct ∧
              cells !! w = Some (pct, default "n/a" (signals !! w))) ∧
    (w ∉ ws → cells !! w = cells0 !! w).
Proof.
  revert cells0. induction ws as [|w0 ws IH]; intros cells0 Hcells w.
  - injection Hcells as <-. split; [by intros ?%elem_of_nil|done].
  - rewrite ma_cells_step in Hcells. bind_inv Hcells.
    destruct (IH _ Hcells w) as [Hin Hout]. split.
    + intros Hw. destruct (decide (w ∈ ws)) as [Hws|Hws]; [by apply Hin|].
      apply elem_of_cons in Hw as [->|Hw]; [|done].
      eexists _, _. split; [done|]. split; [done|].
      rewrite Hout by done. by rewrite lookup_insert_eq.
    + intros Hw. apply not_elem_of_cons in Hw as [Hne Hw].
      rewrite Hout by done. by rewrite lookup_insert_ne.
Qed.

(** A raising window makes the loop over the windows raise. *)
Lemma ma_cells_raises latest last_close signals ws cells0 w :
  w ∈ ws →
  is_ok (m ← _to_scalar (series_get latest (sma_col w));
         vs_pct m last_close) = false →
  is_ok (ma_cells latest last_close signals ws cells0) = false.
Proof.
  intros Hw Hraise.
  destruct (ma_cells latest last_close signals ws cells0) as [cells|] eqn:Hc;
    [|done].
  destruct (ma_cells_inv _ _ _ _ _ _ Hc w) as [Hin _].
  destruct (Hin Hw) as (m & pct & Hm & Hpct & _).
  by rewrite Hm in Hraise; simpl in Hraise; rewrite Hpct in Hraise.
Qed.

(** The two loops over the windows agree. When [get_ma_signals] and the
    loop that fills the row are run on the same latest bar, every requested
    window gets a cell made of a percentage and the window's signal; the
    percentage is missing exactly when the signal is 'n/a'; and for an
    average that is a positive number, the percentage is positive exactly
    when the signal is 'above'. *)
Theorem status_matches_percentage (latest : gmap string value)
    (last_close : option pyfloat) (signals : gmap Z string)
    (cells : gmap Z (option pyfloat * string)) (ws : list Z) (w : Z) :
  _to_scalar (series_get latest "Close") = Ok last_close →
  signals_loop latest (series_get latest "Close") ws ∅ = Ok signals →
  ma_cells latest last_close signals ws ∅ = Ok cells →
  w ∈ ws →
  ∃ pct status,
    cells !! w = Some (pct, status) ∧
    signals !! w = Some status ∧
    (pct = None ↔ status = "n/a") ∧
    (∀ m p, ma_scalar_of latest w = Some (Fin m) → (0 < m)%Qc →
            pct = Some (Fin p) → ((0 < p)%Qc ↔ status = "above")).
Proof.
  intros Hclose Hsignals Hcells Hw.
  destruct (signals_loop_inv _ _ _ _ _ Hsignals w) as [Hsig _].
  destruct (Hsig Hw) as (c & m & Hc & Hm & Hstatus).
  rewrite Hclose in Hc. injection Hc as <-.
  destruct (ma_cells_inv _ _ _ _ _ _ Hcells w) as [Hcell _].
  destruct (Hcell Hw) as (m' & pct & Hm' & Hpct & Hlook).
  rewrite Hm in Hm'. injection Hm' as <-.
  rewrite Hstatus in Hlook. simpl in Hlook.
  exists pct, (classify last_close m). split; [done|]. split; [done|].
  unfold ma_scalar_of. rewrite Hm. unfold vs_pct in Hpct. split.
  - destruct m as [x|], last_close as [l|]; simpl in *;
      try (injection Hpct as <-; done).
    bind_inv Hpct. injection Hpct as <-.
    split; [done|]. by destruct (fgt l x).
  - intros x p -> Hx ->.
    destruct last_close as [l|]; [|done]. bind_inv Hpct.
    injection Hpct as Hp. unfold fdiv in E.
    destruct (decide (x = 0%Qc)); [done|].
    destruct l as [l|]; [|by injection E as <-].
    injection E as <-. simpl in Hp. injection Hp as <-.
    rewrite pct_sign by done. simpl.
    case_bool_decide; split; try done.
Qed.

Lemma status_matches_percentage_witness :
  ∃ pct status,
    cells_close_105 !! 10 = Some (pct, status) ∧
    ({[ 10 := "above" ]} : gmap Z string) !! 10 = Some status ∧
    (pct = None ↔ status = "n/a") ∧
    (∀ m p, ma_scalar_of (iloc_last df_close_105) 10 = Some (Fin m) →
            (0 < m)%Qc →
            pct = Some (Fin p) → ((0 < p)%Qc ↔ status = "above")).
Proof.
  apply (status_matches_percentage (iloc_last df_close_105)
           (Some (Fin (Qc_of_Z 105))) _ _ [10] 10).
  - reflexivity.
  - reflexivity.
  - reflexivity.
  - apply list_elem_of_here.
Defined.

Section aborts.

Context {RM : RollingMean}.

Variable load_price_data : string → string → DataFrame.
Variable today : Z.
Variable period : string.
Variable selected_mas : list Z.

(** The loop over the tickers has no handler: when the row of one ticker
    that has price data cannot be assembled, the whole loop raises and no
    table is built, whatever the other tickers. *)
Theorem screener_loop_aborts (ipos_df : list IpoRecord)
    (tickers : list string) (rows : list ScreenerRow) (t : string) :
  t ∈ tickers →
  has_prices load_price_data period t →
  is_ok (screener_row today selected_mas ipos_df t (load_price_data t period))
  = false →
  is_ok (screener_loop load_price_data today period selected_mas ipos_df
           tickers rows) = false.
Proof.
  intros Ht Hprices Hrow. revert rows.
  induction tickers as [|t0 rest IH]; intros rows;
    [by apply elem_of_nil in Ht|].
  simpl. destruct (decide (t0 = t)) as [->|Hne].
  - rewrite Hprices.
    by destruct (screener_row today selected_mas ipos_df t
                   (load_price_data t period)).
  - apply elem_of_cons in Ht as [->|Ht]; [done|].
    destruct (df_empty (load_price_data t0 period)); [by apply IH|].
    destruct (screener_row today selected_mas ipos_df t0
                (load_price_data t0 period)); simpl; [by apply IH|done].
Qed.

(** The percentage against a moving average divides by the average
    without a guard: when the latest average of a requested window is
    exactly zero and the latest close is a number, the row of the ticker
    cannot be assembled. *)
Theorem screener_row_zero_average (ipos_df : list IpoRecord)
    (ticker0 : string) (price_df price_df' : DataFrame)
    (signals : gmap Z string) (latest : gmap string value) (w : Z)
    (l : pyfloat) :
  calculate_moving_averages price_df (windows selected_mas) = Ok price_df' →
  get_ma_signals price_df' (windows selected_mas) = Ok (signals, latest) →
  w ∈ windows selected_mas →
  _to_scalar (series_get latest (sma_col w)) = Ok (Some (Fin 0)) →
  _to_scalar (series_get latest "Close") = Ok (Some l) →
  is_ok (screener_row today selected_mas ipos_df ticker0 price_df) = false.
Proof.
  intros Hcalc Hsig Hw Hsma Hclose.
  destruct (screener_row today selected_mas ipos_df ticker0 price_df)
    as [row|] eqn:Hrow; [|done].
  exfalso. unfold screener_row in Hrow. rewrite Hcalc in Hrow.
  simpl in Hrow. rewrite Hsig in Hrow. simpl in Hrow.
  bind_inv Hrow. injection Hclose as ->.
  pose proof (ma_cells_raises latest (Some l) signals
                (windows selected_mas) ∅ w Hw) as Hraise.
  rewrite Hsma in Hraise. simpl in Hraise.
  match goal with Hc : ma_cells _ _ _ _ _ = Ok _ |- _ =>
    rewrite Hc in Hraise end.
  by discriminate Hraise.
Qed.

End aborts.

End status_and_percentage.

Section status_and_percentage_examples.

(** The examples are computed with [exact_mean]. *)
#[local] Existing Instance exact_mean.

Lemma screener_row_zero_average_witness :
  is_ok (screener_row 200 [2] three_ipos "BBB" df_zero_closes) = false.
Proof.
  apply (screener_row_zero_average 200 [2] three_ipos "BBB" df_zero_closes
           df_zero_closes_sma {[ 2 := "below" ]}
           (iloc_last df_zero_closes_sma) 2 (Fin (Qc_of_Z 0))).
  - reflexivity.
  - reflexivity.
  - apply list_elem_of_here.
  - vm_compute. do 3 f_equal. by apply Qc_is_canon.
  - reflexivity.
Defined.

Lemma screener_loop_aborts_witness :
  is_ok (screener_loop zero_prices 200 "6mo" [2] three_ipos
           ["AAA"; "BBB"; "CCC"] []) = false.
Proof.
  apply (screener_loop_aborts zero_prices 200 "6mo" [2] three_ipos
           ["AAA"; "BBB"; "CCC"] [] "BBB").
  - apply list_elem_of_further, list_elem_of_here.
  - reflexivity.
  - reflexivity.
Defined.

End status_and_percentage_examples.

(** * The price table *)

Section price_data.

#[local] Instance by_index_trans : Transitive by_index.
Proof. intros a b c. unfold by_index. lia. Qed.

#[local] Instance by_index_total : Total by_index.
Proof. intros a b. unfold by_index. lia. Qed.

Lemma argsort_Permutation idx : argsort idx ≡ₚ seq 0 (length idx).
Proof.
  unfold argsort. rewrite merge_sort_Permutation.
  by rewrite snd_zip by (rewrite length_seq; lia).
Qed.

Lemma take_rows_shift {A} (x : A) l ks :
  take_rows (S <$> ks) (x :: l) = take_rows ks l.
Proof.
  unfold take_rows. induction ks as [|k ks IH]; [done|].
  rewrite fmap_cons. cbn [omap list_omap]. rewrite IH. done.
Qed.

Lemma take_rows_seq {A} (l : list A) : take_rows (seq 0 (length l)) l = l.
Proof.
  induction l as [|x l IH]; [done|].
  cbn [length seq]. rewrite <- fmap_S_seq.
  change (x :: take_rows (S <$> seq 0 (length l)) (x :: l) = x :: l).
  by rewrite take_rows_shift, IH.
Qed.

Lemma take_rows_Permutation {A} (ix : list nat) (col : list A) :
  ix ≡ₚ seq 0 (length col) → take_rows ix col ≡ₚ col.
Proof.
  intros Hix. unfold take_rows. rewrite Hix.
  change (take_rows (seq 0 (length col)) col ≡ₚ col). by rewrite take_rows_seq.
Qed.

Lemma take_rows_snoc {A} (ix : list nat) (i : nat) (col : list A) v :
  col !! i = Some v → take_rows (ix ++ [i]) col = (take_rows ix col ++ [v])%list.
Proof. intros Hv. unfold take_rows. rewrite omap_app. simpl. by rewrite Hv. Qed.

Lemma zip_seq_lookup (pre idx : list Z) :
  Forall (λ p : Z * nat, (pre ++ idx)%list !! p.2 = Some p.1)
    (zip idx (seq (length pre) (length idx))).
Proof.
  revert pre. induction idx as [|v idx IH]; intros pre; [constructor|].
  simpl. constructor.
  - simpl. by rewrite list_lookup_middle.
  - specialize (IH (pre ++ [v])%list).
    rewrite length_app, <- app_assoc in IH. simpl in IH.
    by replace (length pre + 1)%nat with (S (length pre)) in IH by lia.
Qed.

Lemma take_rows_pairs (idx : list Z) (pairs : list (Z * nat)) :
  Forall (λ p : Z * nat, idx !! p.2 = Some p.1) pairs →
  take_rows pairs.*2 idx = pairs.*1.
Proof.
  unfold take_rows. induction 1 as [|p pairs Hp _ IH]; [done|].
  rewrite !fmap_cons. cbn [omap list_omap]. by rewrite Hp, IH.
Qed.

(** The sorted index, as the first components of the sorted bars. *)
Lemma take_rows_argsort idx :
  take_rows (argsort idx) idx
  = (merge_sort by_index (zip idx (seq 0 (length idx)))).*1.
Proof.
  unfold argsort. apply take_rows_pairs.
  rewrite merge_sort_Permutation. apply (zip_seq_lookup [] idx).
Qed.

Lemma sort_index_sorted df : StronglySorted Z.le (index (sort_index df)).
Proof.
  unfold sort_index. simpl. rewrite take_rows_argsort.
  apply (StronglySorted_fmap fst by_index); [done|].
  apply StronglySorted_merge_sort; apply _.
Qed.

Lemma sort_index_index_Permutation df : index (sort_index df) ≡ₚ index df.
Proof. apply take_rows_Permutation, argsort_Permutation. Qed.

Lemma df_len_sort_index df : df_len (sort_index df) = df_len df.
Proof. unfold df_len. by rewrite sort_index_index_Permutation. Qed.

Lemma df_len_rename df : df_len (rename_columns df) = df_len df.
Proof. unfold rename_columns. by destruct (columns df !! "Adj Close"). Qed.

Lemma rename_columns_well_formed df :
  well_formed df → well_formed (rename_columns df).
Proof.
  intros Hwf c cells. rewrite df_len_rename. unfold rename_columns, df_get.
  destruct (columns df !! "Adj Close") as [adj|] eqn:Hadj; [|apply Hwf].
  simpl. rewrite lookup_insert.
  case_decide as Hc.
  - intros [= <-]. by apply (Hwf "Adj Close").
  - rewrite lookup_delete. case_decide; [done|]. apply Hwf.
Qed.

Lemma rename_columns_empty df :
  df_empty (rename_columns df) = df_empty df.
Proof.
  unfold df_empty. rewrite df_len_rename. f_equal.
  unfold rename_columns.
  destruct (columns df !! "Adj Close") as [adj|] eqn:Hadj; [|done]. simpl.
  rewrite !bool_decide_eq_false_2; [done| |].
  - intros Hempty. by rewrite Hempty in Hadj.
  - apply insert_non_empty.
Qed.

Lemma sort_index_empty df : df_empty (sort_index df) = df_empty df.
Proof.
  unfold df_empty. rewrite df_len_sort_index. f_equal.
  unfold sort_index. simpl. apply bool_decide_ext.
  apply fmap_empty_iff.
Qed.

(** [get_price_data] returns an empty table exactly when the ticker is
    empty or the source has no bars for it; the screener skips exactly
    these tickers. *)
Theorem get_price_data_empty (download : string → string → DataFrame)
    (ticker0 period : string) :
  df_empty (get_price_data download ticker0 period) = true ↔
  ticker0 = "" ∨ df_empty (download ticker0 period) = true.
Proof.
  unfold get_price_data. destruct (decide (ticker0 = "")) as [->|Hne].
  - split; [by left|done].
  - destruct (df_empty (download ticker0 period)) eqn:Hempty.
    + rewrite Hempty. split; [by right|done].
    + rewrite sort_index_empty, rename_columns_empty, Hempty.
      split; [done|]. by intros [?|?].
Qed.

Lemma take_rows_zip {A B} (ix : list nat) (a : list A) (b : list B) :
  length a = length b →
  take_rows ix (zip a b) = zip (take_rows ix a) (take_rows ix b).
Proof.
  intros Hlen. unfold take_rows. induction ix as [|k ix IH]; [done|].
  cbn [omap list_omap]. rewrite IH, lookup_zip_with.
  destruct (a !! k) as [x|] eqn:Ha.
  - destruct (lookup_lt_is_Some_2 b k) as [y Hb].
    { rewrite <- Hlen. by eapply lookup_lt_Some. }
    rewrite Hb. done.
  - rewrite (lookup_ge_None_2 b k); [done|].
    rewrite <- Hlen. by apply lookup_ge_None.
Qed.

(** The bars of a column keep their index entries when the table is
    sorted. *)
Lemma sort_index_rows df c cells :
  df_get df c = Some cells → length cells = df_len df →
  ∃ cells',
    df_get (sort_index df) c = Some cells' ∧
    zip (index (sort_index df)) cells' ≡ₚ zip (index df) cells.
Proof.
  intros Hc Hlen. exists (take_rows (argsort (index df)) cells). split.
  - unfold sort_index, df_get. simpl. rewrite lookup_fmap.
    unfold df_get in Hc. by rewrite Hc.
  - unfold sort_index. simpl. rewrite <- take_rows_zip by done.
    apply take_rows_Permutation.
    rewrite length_zip_with, Hlen, Nat.min_id. apply argsort_Permutation.
Qed.

Lemma sort_index_well_formed df : well_formed df → well_formed (sort_index df).
Proof.
  intros Hwf c cells. rewrite df_len_sort_index.
  unfold sort_index, df_get. simpl. rewrite lookup_fmap.
  destruct (columns df !! c) as [col|] eqn:Hc; [|done].
  intros [= <-]. apply Hwf in Hc.
  rewrite take_rows_Permutation; [done|].
  rewrite Hc. apply argsort_Permutation.
Qed.

(** The table [get_price_data] returns, when it has bars, has them in
    ascending order of the index, whatever the order in which the source
    delivered them, and they are the same bars: the index is a permutation
    of the source's, and the table has a column "Adj Close" no more. *)
Theorem get_price_data_sorted (download : string → string → DataFrame)
    (ticker0 period : string) :
  df_empty (get_price_data download ticker0 period) = false →
  StronglySorted Z.le (index (get_price_data download ticker0 period)) ∧
  index (get_price_data download ticker0 period)
  ≡ₚ index (download ticker0 period) ∧
  df_get (get_price_data download ticker0 period) "Adj Close" = None.
Proof.
  intros Hne.
  assert (get_price_data download ticker0 period
          = sort_index (rename_columns (download ticker0 period))) as Heq.
  { unfold get_price_data in *. destruct (decide _); [done|].
    destruct (df_empty (download ticker0 period)) eqn:Hd; [|done].
    congruence. }
  rewrite Heq. split; [apply sort_index_sorted|]. split.
  - rewrite sort_index_index_Permutation. unfold rename_columns.
    by destruct (columns _ !! "Adj Close").
  - unfold sort_index, df_get. simpl. rewrite lookup_fmap.
    unfold rename_columns.
    destruct (columns (download ticker0 period) !! "Adj Close") eqn:Hadj;
      simpl; [|by rewrite Hadj].
    by rewrite lookup_insert_ne, lookup_delete_eq.
Qed.

(** On a well-formed table of the source, the table returned is well
    formed, every column of the source is there, the adjusted close under
    the name "AdjClose", and every bar keeps the cells it had: a column
    paired with the index is a permutation of what it was. *)
Theorem get_price_data_rows (download : string → string → DataFrame)
    (ticker0 period : string) (c : string) (cells : list value) :
  ticker0 ≠ "" →
  df_empty (download ticker0 period) = false →
  well_formed (download ticker0 period) →
  df_get (download ticker0 period) "AdjClose" = None →
  df_get (download ticker0 period) c = Some cells →
  well_formed (get_price_data download ticker0 period) ∧
  ∃ cells',
    df_get (get_price_data download ticker0 period)
      (if decide (c = "Adj Close") then "AdjClose" else c) = Some cells' ∧
    zip (index (get_price_data download ticker0 period)) cells'
    ≡ₚ zip (index (download ticker0 period)) cells.
Proof.
  intros Hticker Hne Hwf Hfree Hc. unfold get_price_data.
  destruct (decide (ticker0 = "")); [done|]. rewrite Hne.
  split; [by apply sort_index_well_formed, rename_columns_well_formed|].
  set (df := download ticker0 period) in *.
  assert (df_get (rename_columns df)
            (if decide (c = "Adj Close") then "AdjClose" else c)
          = Some cells) as Hrenamed.
  { unfold rename_columns, df_get in *.
    destruct (decide (c = "Adj Close")) as [->|Hca].
    - rewrite Hc. simpl. by rewrite lookup_insert_eq.
    - destruct (columns df !! "Adj Close") as [adj|]; [|done]. simpl.
      rewrite lookup_insert_ne by congruence.
      by rewrite lookup_delete_ne. }
  destruct (sort_index_rows (rename_columns df) _ cells Hrenamed)
    as (cells' & Hlook & Hperm).
  { rewrite df_len_rename. by apply Hwf in Hc. }
  exists cells'. split; [done|]. rewrite Hperm.
  unfold rename_columns. by destruct (columns df !! "Adj Close").
Qed.

Lemma snoc_inv {A} (l : list A) : l ≠ [] → ∃ front x, l = (front ++ [x])%list.
Proof.
  induction l as [|x l _] using rev_ind; [done|]. intros _. by exists l, x.
Qed.

(** The latest bar. On a well-formed table of the source, the last row of
    the table returned, the one [get_ma_signals] and the screener read as
    the latest bar, is a bar of the source with the greatest index entry:
    for some position of the source that holds the maximum of the index,
    the last row has in every column the cell the source has there. *)
Theorem get_price_data_latest (download : string → string → DataFrame)
    (ticker0 period : string) :
  ticker0 ≠ "" →
  df_empty (download ticker0 period) = false →
  well_formed (download ticker0 period) →
  ∃ i mx,
    index (download ticker0 period) !! i = Some mx ∧
    (∀ x, x ∈ index (download ticker0 period) → x ≤ mx) ∧
    ∀ c cells,
      df_get (rename_columns (download ticker0 period)) c = Some cells →
      iloc_last (get_price_data download ticker0 period) !! c = cells !! i.
Proof.
  intros Hticker Hne Hwf. unfold get_price_data.
  destruct (decide (ticker0 = "")); [done|]. rewrite Hne.
  set (df := download ticker0 period) in *.
  pose proof (rename_columns_well_formed df Hwf) as Hwf'.
  assert (index (rename_columns df) = index df) as Hidx
    by (unfold rename_columns; by destruct (columns df !! "Adj Close")).
  pose proof (argsort_Permutation (index df)) as Hperm.
  assert (0 < length (index df))%nat as Hpos.
  { unfold df_empty in Hne. apply orb_false_iff in Hne as [Hn _].
    apply Nat.eqb_neq in Hn. unfold df_len in Hn. lia. }
  destruct (snoc_inv (argsort (index df))) as (front & i & Hix).
  { intros Hnil. rewrite Hnil in Hperm.
    apply Permutation_length in Hperm. rewrite length_seq in Hperm.
    simpl in Hperm. lia. }
  rewrite Hix in Hperm.
  assert (i < length (index df))%nat as Hi.
  { assert (i ∈ seq 0 (length (index df))) as Hin.
    { rewrite <- Hperm. apply elem_of_app. right. apply list_elem_of_here. }
    apply elem_of_seq in Hin. lia. }
  destruct (lookup_lt_is_Some_2 _ _ Hi) as [mx Hmx].
  exists i, mx. split; [done|]. split.
  - pose proof (sort_index_sorted (rename_columns df)) as Hsorted.
    pose proof (sort_index_index_Permutation (rename_columns df)) as Hp.
    unfold sort_index in Hsorted, Hp. simpl in Hsorted, Hp.
    rewrite Hidx, Hix in Hsorted, Hp.
    rewrite (take_rows_snoc _ _ _ _ Hmx) in Hsorted, Hp.
    intros x Hx. rewrite <- Hp in Hx.
    apply elem_of_app in Hx as [Hx|Hx].
    + eapply StronglySorted_app_1_elem_of; [done..|apply list_elem_of_here].
    + apply list_elem_of_singleton in Hx as ->. lia.
  - intros c cells Hc. unfold iloc_last, sort_index. simpl.
    rewrite !lookup_fmap. unfold df_get in Hc. rewrite Hc. simpl.
    rewrite Hidx, Hix.
    assert (length cells = length (index df)) as Hlen.
    { apply Hwf' in Hc. unfold df_len in Hc. by rewrite Hidx in Hc. }
    destruct (lookup_lt_is_Some_2 cells i) as [v Hv]; [lia|].
    rewrite Hv, (take_rows_snoc _ _ _ _ Hv). by rewrite last_item_snoc.
Qed.

End price_data.

Lemma get_price_data_sorted_witness :
  StronglySorted Z.le (index (get_price_data unsorted_prices "AAA" "6mo")) ∧
  index (get_price_data unsorted_prices "AAA" "6mo")
  ≡ₚ index (unsorted_prices "AAA" "6mo") ∧
  df_get (get_price_data unsorted_prices "AAA" "6mo") "Adj Close" = None.
Proof.
  apply (get_price_data_sorted unsorted_prices "AAA" "6mo"). reflexivity.
Defined.

Lemma get_price_data_rows_witness :
  well_formed (get_price_data unsorted_prices "AAA" "6mo") ∧
  ∃ cells',
    df_get (get_price_data unsorted_prices "AAA" "6mo")
      (if decide ("Adj Close" = "Adj Close") then "AdjClose" else "Adj Close")
    = Some cells' ∧
    zip (index (get_price_data unsorted_prices "AAA" "6mo")) cells'
    ≡ₚ zip (index (unsorted_prices "AAA" "6mo")) [num 29; num 9; num 19].
Proof.
  apply (get_price_data_rows unsorted_prices "AAA" "6mo" "Adj Close"
           [num 29; num 9; num 19]).
  - discriminate.
  - reflexivity.
  - intros c cells Hc. unfold unsorted_prices, df_get in Hc. simpl in Hc.
    apply lookup_insert_Some in Hc as [[_ <-]|[_ Hc]]; [reflexivity|].
    apply lookup_singleton_Some in Hc as [_ <-]. reflexivity.
  - reflexivity.
  - reflexivity.
Defined.

Lemma get_price_data_latest_witness :
  ∃ i mx,
    index (unsorted_prices "AAA" "6mo") !! i = Some mx ∧
    (∀ x, x ∈ index (unsorted_prices "AAA" "6mo") → x ≤ mx) ∧
    ∀ c cells,
      df_get (rename_columns (unsorted_prices "AAA" "6mo")) c = Some cells →
      iloc_last (get_price_data unsorted_prices "AAA" "6mo") !! c
      = cells !! i.
Proof.
  apply (get_price_data_latest unsorted_prices "AAA" "6mo").
  - discriminate.
  - reflexivity.
  - intros c cells Hc. unfold unsorted_prices, df_get in Hc. simpl in Hc.
    apply lookup_insert_Some in Hc as [[_ <-]|[_ Hc]]; [reflexivity|].
    apply lookup_singleton_Some in Hc as [_ <-]. reflexivity.
Defined.

(** * Formatting and colouring of the cells *)

Section formatting.

Variable fmt_1f : pyfloat → string.
Variable fmt_0f : pyfloat → string.

Lemma Qc_of_Z_pos n : 0 < n → (0 < Qc_of_Z n)%Qc.
Proof. intros Hn. rewrite <- Z2Qc_inj_0. by apply (proj1 (Z2Qc_inj_lt _ _)). Qed.

Lemma Qcdiv_mult_cancel (q z : Qc) : z ≠ 0%Qc → (q / z * z)%Qc = q.
Proof. intros Hz. by rewrite Qcmult_comm, Qcmult_div_r. Qed.

Lemma Qc_of_Z_nonzero z : 0 < z → Qc_of_Z z ≠ 0%Qc.
Proof.
  intros Hz Heq. pose proof (Qc_of_Z_pos z Hz) as Hpos.
  rewrite Heq in Hpos. by apply (irreflexivity Qclt 0%Qc).
Qed.

Lemma scale_lower (q : Qc) (lo : Z) :
  0 < lo → (Qc_of_Z lo ≤ q)%Qc → (Qc_of_Z 1 ≤ q / Qc_of_Z lo)%Qc.
Proof.
  intros Hlo Hq. apply (Qcmult_le_mono_pos_r _ _ _ (Qc_of_Z_pos lo Hlo)).
  rewrite Qcdiv_mult_cancel by (by apply Qc_of_Z_nonzero).
  by rewrite Z2Qc_inj_1, Qcmult_1_l.
Qed.

Lemma scale_upper (q : Qc) (lo hi : Z) :
  0 < lo → (q < Qc_of_Z (hi * lo))%Qc → (q / Qc_of_Z lo < Qc_of_Z hi)%Qc.
Proof.
  intros Hlo Hq. apply (Qcmult_lt_mono_pos_r _ _ _ (Qc_of_Z_pos lo Hlo)).
  rewrite Qcdiv_mult_cancel by (by apply Qc_of_Z_nonzero).
  by rewrite <- Z2Qc_inj_mul.
Qed.

Lemma fdiv_fin (a b : Qc) : b ≠ 0%Qc → fdiv (Fin a) (Fin b) = Ok (Fin (a / b)).
Proof. intros Hb. unfold fdiv. by destruct (decide (b = 0%Qc)). Qed.

Lemma format_market_cap_float (q : Qc) :
  format_market_cap fmt_1f fmt_0f (VFloat (Fin q))
  = if bool_decide (Qc_of_Z (10 ^ 9) ≤ q)%Qc
    then Ok ("$" +:+ fmt_1f (Fin (q / Qc_of_Z (10 ^ 9))) +:+ "B")
    else if bool_decide (Qc_of_Z (10 ^ 6) ≤ q)%Qc
         then Ok ("$" +:+ fmt_1f (Fin (q / Qc_of_Z (10 ^ 6))) +:+ "M")
         else Ok ("$" +:+ fmt_0f (Fin q)).
Proof.
  unfold format_market_cap.
  cbn [pd_isna checknull py_bool py_float mbind result_bind fge].
  rewrite !fdiv_fin by (by apply Qc_of_Z_nonzero). done.
Qed.

(** The label of a market capitalisation. A missing value is shown as
    "N/A" and nothing else is. A number of at least a billion is shown in
    billions, and the number handed to the one-decimal format is at least
    1; a number from a million up to a billion is shown in millions, and the
    number formatted is at least 1 and below 1000 (before it is rounded to
    one decimal); anything smaller, negative numbers among them, is shown
    in plain dollars. *)
Theorem format_market_cap_label (q : Qc) :
  (∀ v, is_container v = false →
        (format_market_cap fmt_1f fmt_0f v = Ok "N/A" ↔ checknull v = true)) ∧
  ((Qc_of_Z (10 ^ 9) ≤ q)%Qc →
   format_market_cap fmt_1f fmt_0f (VFloat (Fin q))
   = Ok ("$" +:+ fmt_1f (Fin (q / Qc_of_Z (10 ^ 9))) +:+ "B") ∧
   (Qc_of_Z 1 ≤ q / Qc_of_Z (10 ^ 9))%Qc) ∧
  ((Qc_of_Z (10 ^ 6) ≤ q)%Qc → (q < Qc_of_Z (10 ^ 9))%Qc →
   format_market_cap fmt_1f fmt_0f (VFloat (Fin q))
   = Ok ("$" +:+ fmt_1f (Fin (q / Qc_of_Z (10 ^ 6))) +:+ "M") ∧
   (Qc_of_Z 1 ≤ q / Qc_of_Z (10 ^ 6))%Qc ∧
   (q / Qc_of_Z (10 ^ 6) < Qc_of_Z 1000)%Qc) ∧
  ((q < Qc_of_Z (10 ^ 6))%Qc →
   format_market_cap fmt_1f fmt_0f (VFloat (Fin q))
   = Ok ("$" +:+ fmt_0f (Fin q))).
Proof.
  assert (Qc_of_Z (10 ^ 6) ≤ Qc_of_Z (10 ^ 9))%Qc as H69
    by (by apply (proj1 (Z2Qc_inj_le _ _))).
  pose proof Qc_of_Z_nonzero as Hnz.
  split; [|split; [|split]].
  - intros v Hv. destruct (checknull v) eqn:Hnull.
    + split; [done|]. intros _. by destruct v as [| | |[x|]|n|b| |xs|xs].
    + split; [|done]. intros Hna. exfalso.
      unfold format_market_cap in Hna.
      destruct v as [| | |[x|]|n|b| |xs|xs]; try done; simpl in Hna;
        repeat match type of Hna with
               | context [if ?c then _ else _] => destruct c; simpl in Hna
               | context [decide ?P] => destruct (decide P); simpl in Hna
               end;
        try discriminate Hna; injection Hna as Hna; discriminate Hna.
  - intros Hq. split; [|by apply scale_lower].
    rewrite format_market_cap_float. by rewrite bool_decide_eq_true_2.
  - intros Hlo Hhi.
    split; [|split; [by apply scale_lower|by apply (scale_upper q _ 1000)]].
    rewrite format_market_cap_float.
    rewrite bool_decide_eq_false_2 by (by apply Qclt_not_le).
    by rewrite bool_decide_eq_true_2.
  - intros Hq. rewrite format_market_cap_float.
    rewrite bool_decide_eq_false_2.
    2:{ apply Qclt_not_le. eapply Qclt_le_trans; done. }
    by rewrite bool_decide_eq_false_2 by (by apply Qclt_not_le).
Qed.

End formatting.

Section colours.

Lemma pct_negative (l m : Qc) :
  (0 < m)%Qc → ((l / m - 1) * Qc_of_Z 100 < 0)%Qc ↔ (l < m)%Qc.
Proof.
  intros Hm.
  assert (0 < Qc_of_Z 100)%Qc as H100 by (by apply Qc_of_Z_pos).
  assert (m ≠ 0%Qc) as Hm0 by (intros ->; by apply (irreflexivity Qclt 0%Qc)).
  transitivity ((l / m - 1) * Qc_of_Z 100 < 0 * Qc_of_Z 100)%Qc;
    [by rewrite Qcmult_0_l|].
  rewrite <- (Qcmult_lt_mono_pos_r _ _ _ H100).
  transitivity (l / m < 1)%Qc.
  { rewrite (Qclt_minus_iff (l / m) 1), (Qclt_minus_iff (l / m - 1) 0).
    by replace (0 + - (l / m - 1))%Qc with (1 + - (l / m))%Qc by ring. }
  rewrite (Qcmult_lt_mono_pos_r _ _ _ Hm).
  by rewrite Qcmult_1_l, (Qcmult_comm (l / m)), Qcmult_div_r.
Qed.

Lemma ma_color_fin (p : Qc) :
  ma_color (Some (Fin p))
  = if bool_decide (0 < p)%Qc then style_positive
    else if bool_decide (p < 0)%Qc then style_negative else style_zero.
Proof. done. Qed.

(** The colour of a percentage cell tells the same story as the status
    next to it. When the two loops over the windows are run on the same
    latest bar, the cell of a window whose status is 'n/a' gets the style of
    a missing value; and for an average that is a positive number and a
    close that is a number, the cell is green exactly when the status is
    'above', red exactly when the close is below the average, and neutral
    exactly when the two are equal. *)
Theorem cell_colour_matches_status (latest : gmap string value)
    (last_close : option pyfloat) (signals : gmap Z string)
    (cells : gmap Z (option pyfloat * string)) (ws : list Z) (w : Z) :
  _to_scalar (series_get latest "Close") = Ok last_close →
  signals_loop latest (series_get latest "Close") ws ∅ = Ok signals →
  ma_cells latest last_close signals ws ∅ = Ok cells →
  w ∈ ws →
  ∃ pct status,
    cells !! w = Some (pct, status) ∧
    (status = "n/a" → ma_color pct = style_missing) ∧
    (∀ m l, ma_scalar_of latest w = Some (Fin m) → (0 < m)%Qc →
            last_close = Some (Fin l) →
            (ma_color pct = style_positive ↔ status = "above") ∧
            (ma_color pct = style_negative ↔ (l < m)%Qc) ∧
            (ma_color pct = style_zero ↔ l = m)).
Proof.
  intros Hclose Hsignals Hcells Hw.
  destruct (signals_loop_inv _ _ _ _ _ Hsignals w) as [Hsig _].
  destruct (Hsig Hw) as (c & m & Hc & Hm & Hstatus).
  rewrite Hclose in Hc. injection Hc as <-.
  destruct (ma_cells_inv _ _ _ _ _ _ Hcells w) as [Hcell _].
  destruct (Hcell Hw) as (m' & pct & Hm' & Hpct & Hlook).
  rewrite Hm in Hm'. injection Hm' as <-.
  rewrite Hstatus in Hlook. simpl in Hlook.
  exists pct, (classify last_close m). split; [done|].
  unfold ma_scalar_of. rewrite Hm. split.
  - unfold vs_pct in Hpct.
    destruct m as [x|], last_close as [l|]; simpl in *;
      try (injection Hpct as <-; done).
    by destruct (fgt l x).
  - intros x l -> Hx ->.
    assert (x ≠ 0%Qc) as Hx0
      by (intros ->; by apply (irreflexivity Qclt 0%Qc)).
    unfold vs_pct in Hpct. rewrite fdiv_fin in Hpct by done.
    simpl in Hpct. injection Hpct as <-.
    rewrite ma_color_fin. simpl.
    pose proof (pct_sign l x Hx) as Hpos.
    pose proof (pct_negative l x Hx) as Hneg.
    assert (∀ a b : Qc, (a < b)%Qc → (b < a)%Qc → False) as Hasym
      by (intros a b H1 H2; apply (irreflexivity Qclt a); by etrans).
    assert (∀ a : Qc, (a < a)%Qc → False) as Hirr
      by (intros a; apply (irreflexivity Qclt a)).
    destruct (Qc_dec l x) as [[Hlt|Hgt]|Heq].
    + rewrite (bool_decide_eq_false_2 (0 < _)%Qc) by (rewrite Hpos; eauto).
      rewrite (bool_decide_eq_true_2 (_ < 0)%Qc) by by rewrite Hneg.
      rewrite (bool_decide_eq_false_2 (x < l)%Qc) by eauto.
      split_and!; split; try done. intros ->. by destruct (Hirr x).
    + rewrite (bool_decide_eq_true_2 (0 < _)%Qc) by by rewrite Hpos.
      rewrite (bool_decide_eq_true_2 (x < l)%Qc) by done.
      split_and!; split; try done.
      * intros Hl. by destruct (Hasym _ _ Hl).
      * intros ->. by destruct (Hirr x).
    + subst x.
      rewrite (bool_decide_eq_false_2 (0 < _)%Qc) by (rewrite Hpos; eauto).
      rewrite (bool_decide_eq_false_2 (_ < 0)%Qc) by (rewrite Hneg; eauto).
      rewrite (bool_decide_eq_false_2 (l < l)%Qc) by eauto.
      split_and!; split; try done. intros Hl. by destruct (Hirr l).
Qed.

Lemma cell_colour_matches_status_witness :
  ∃ pct status,
    cells_close_105 !! 10 = Some (pct, status) ∧
    (status = "n/a" → ma_color pct = style_missing) ∧
    (∀ m l, ma_scalar_of (iloc_last df_close_105) 10 = Some (Fin m) →
            (0 < m)%Qc →
            Some (Fin (Qc_of_Z 105)) = Some (Fin l) →
            (ma_color pct = style_positive ↔ status = "above") ∧
            (ma_color pct = style_negative ↔ (l < m)%Qc) ∧
            (ma_color pct = style_zero ↔ l = m)).
Proof.
  apply (cell_colour_matches_status (iloc_last df_close_105)
           (Some (Fin (Qc_of_Z 105))) {[ 10 := "above" ]} _ [10] 10).
  - reflexivity.
  - reflexivity.
  - reflexivity.
  - apply list_elem_of_here.
Defined.

End colours.


(** * The chart *)

Section chart.

Context {RM : RollingMean}.

Variable py_ge : value → value → result bool.

Lemma getitem_inv df c cells :
  getitem df c = Ok cells → df_get df c = Some cells.
Proof. unfold getitem. destruct (df_get df c); naive_solver. Qed.

Lemma getitem_missing df c : df_get df c = None → getitem df c = Raise KeyError.
Proof. unfold getitem. by intros ->. Qed.

(** What the chart is made of when the table has bars. *)
Lemma create_candlestick_chart_inv df t ws fig :
  df_empty df = false →
  create_candlestick_chart py_ge df t ws = Ok fig →
  ∃ open high low close volume colors,
    df_get df "Open" = Some open ∧ df_get df "High" = Some high ∧
    df_get df "Low" = Some low ∧ df_get df "Close" = Some close ∧
    df_get df "Volume" = Some volume ∧
    volume_colors py_ge (zip open close) = Ok colors ∧
    traces fig
    = Candlestick (index df) open high low close
      :: Scatter (index df) close "Close price" "#e5e7eb"
      :: flat_map (ma_overlay df) ws ++ [Bar (index df) volume colors].
Proof.
  intros Hne Hfig. unfold create_candlestick_chart in Hfig.
  rewrite Hne in Hfig.
  destruct (getitem df "Open") as [open|] eqn:Hopen; [|done].
  destruct (getitem df "High") as [high|] eqn:Hhigh; [|done].
  destruct (getitem df "Low") as [low|] eqn:Hlow; [|done].
  destruct (getitem df "Close") as [close|] eqn:Hclose; [|done].
  cbn [mbind result_bind] in Hfig.
  apply getitem_inv in Hopen, Hhigh, Hlow, Hclose.
  rewrite Hclose in Hfig. cbn [mbind result_bind] in Hfig.
  destruct (volume_colors py_ge (zip open close)) as [colors|] eqn:Hcolors;
    [|done].
  destruct (getitem df "Volume") as [volume|] eqn:Hvolume; [|done].
  cbn [mbind result_bind] in Hfig. injection Hfig as <-.
  apply getitem_inv in Hvolume.
  by exists open, high, low, close, volume, colors.
Qed.

(** A table with bars cannot be charted without its price and volume
    columns: when one of Open, High, Low or Close is absent the call raises
    KeyError, and a call that returns had the Volume column as well. The
    test that the Close column exists, made before the close-price line is
    added, comes after the candlestick trace has read that column: every
    chart of a table with bars has the close-price line. *)
Theorem chart_needs_price_columns (df : DataFrame) (t : string)
    (ws : list Z) :
  df_empty df = false →
  (∀ c, c ∈ price_columns → df_get df c = None →
        create_candlestick_chart py_ge df t ws = Raise KeyError) ∧
  (∀ fig, create_candlestick_chart py_ge df t ws = Ok fig →
          (∀ c, c ∈ "Volume" :: price_columns → is_Some (df_get df c)) ∧
          ∃ close, df_get df "Close" = Some close ∧
                   Scatter (index df) close "Close price" "#e5e7eb"
                   ∈ traces fig).
Proof.
  intros Hne. split.
  - intros c Hc Hnone. unfold create_candlestick_chart. rewrite Hne.
    destruct (getitem df "Open") as [open|] eqn:Hopen; cycle 1.
    { unfold getitem in Hopen. by destruct (df_get df "Open"); simplify_eq. }
    destruct (getitem df "High") as [high|] eqn:Hhigh; cycle 1.
    { unfold getitem in Hhigh. by destruct (df_get df "High"); simplify_eq. }
    destruct (getitem df "Low") as [low|] eqn:Hlow; cycle 1.
    { unfold getitem in Hlow. by destruct (df_get df "Low"); simplify_eq. }
    destruct (getitem df "Close") as [close|] eqn:Hclose; cycle 1.
    { unfold getitem in Hclose. by destruct (df_get df "Close"); simplify_eq. }
    apply getitem_inv in Hopen, Hhigh, Hlow, Hclose.
    unfold price_columns in Hc.
    repeat (apply elem_of_cons in Hc as [->|Hc]; [congruence|]).
    by apply elem_of_nil in Hc.
  - intros fig Hfig.
    destruct (create_candlestick_chart_inv _ _ _ _ Hne Hfig)
      as (open & high & low & close & volume & colors & Hopen & Hhigh
          & Hlow & Hclose & Hvolume & _ & ->).
    split.
    + intros c Hc. unfold price_columns in Hc.
      repeat (apply elem_of_cons in Hc as [->|Hc]; [by eexists|]).
      by apply elem_of_nil in Hc.
    + exists close. split; [done|]. apply elem_of_cons. right.
      apply elem_of_cons. by left.
Qed.

Lemma notna_any_replicate n : notna_any (replicate n VNA) = false.
Proof. by induction n. Qed.

Lemma notna_any_last (col : list value) :
  checknull (last_item col) = false → notna_any col = true.
Proof.
  intros Hlast. destruct (decide (col = [])) as [->|Hcol]; [done|].
  destruct (snoc_inv col Hcol) as (xs & x & ->).
  rewrite last_item_snoc in Hlast. unfold notna_any.
  rewrite existsb_app. simpl. rewrite Hlast. simpl.
  apply orb_true_r.
Qed.

Lemma close_not_sma w : "Close" ≠ sma_col w.
Proof. done. Qed.

(** The overlay of a window after [calculate_moving_averages] on finite
    closes. *)
Lemma ma_overlay_after (df' : DataFrame) (qs : list Qc) (w : Z) col :
  0 < w → (0 < length qs)%nat →
  sma_column (length qs) (fins qs) w = Ok col →
  df_get df' (sma_col w) = Some col →
  trace_name <$> ma_overlay df' w
  = if decide (w ≤ Z.of_nat (length qs)) then [sma_name w] else [].
Proof.
  intros Hw Hlen Hcol Hget. unfold ma_overlay. rewrite Hget.
  pose proof (sma_column_last qs w col Hw Hlen Hcol) as Hlast.
  destruct (decide (w ≤ Z.of_nat (length qs))) as [Hle|Hgt].
  - rewrite notna_any_last; [done|]. by rewrite Hlast.
  - unfold sma_column in Hcol.
    replace (Z.of_nat (length qs) >=? w) with false in Hcol
      by (symmetry; rewrite Z.geb_leb; apply Z.leb_gt; lia).
    injection Hcol as <-. by rewrite notna_any_replicate.
Qed.

Lemma overlay_names (df' : DataFrame) (P : Z → Prop) `{∀ w, Decision (P w)}
    (ws : list Z) :
  (∀ w, w ∈ ws →
        trace_name <$> ma_overlay df' w
        = if decide (P w) then [sma_name w] else []) →
  trace_name <$> flat_map (ma_overlay df') ws = sma_name <$> filter P ws.
Proof.
  induction ws as [|w rest IH]; intros Hws; [done|].
  cbn [flat_map]. rewrite fmap_app, filter_cons.
  rewrite (Hws w) by apply list_elem_of_here.
  rewrite IH by (intros w' Hw'; apply Hws; by apply list_elem_of_further).
  by destruct (decide (P w)).
Qed.

(** The legend of the chart the application draws. When the averages of
    positive windows are computed on a close-price series of numbers and the
    table is then charted for the same windows, the traces are, in order:
    the candles, the close-price line, one line per requested window that
    is not longer than the history, and the volume bars. A window longer
    than the history has a column but no line. *)
Theorem chart_legend_after_averages (df df' : DataFrame) (qs : list Qc)
    (ws : list Z) (t : string) (fig : Figure) :
  df_len df = length qs → (0 < length qs)%nat →
  df_get df "Close" = Some (fins qs) →
  Forall (λ w, 0 < w) ws →
  calculate_moving_averages df ws = Ok df' →
  create_candlestick_chart py_ge df' t ws = Ok fig →
  trace_name <$> traces fig
  = "Price" :: "Close price"
    :: (sma_name <$> filter (λ w, w ≤ Z.of_nat (length qs)) ws)
    ++ ["Volume"].
Proof.
  intros Hn Hlen Hclose Hpos Hcalc Hfig.
  assert (0 < df_len df)%nat as Hbars by lia.
  unfold calculate_moving_averages in Hcalc.
  rewrite (df_empty_false df _ Hclose), Hclose in Hcalc by done.
  destruct (sma_loop_spec _ _ _ _ Hcalc) as (Hidx & Hframe & Hcols).
  assert (df_empty df' = false) as Hne.
  { apply (df_empty_false df' (fins qs)).
    - unfold df_get. rewrite Hframe; [done|].
      intros w _ _. apply close_not_sma.
    - unfold df_len. by rewrite Hidx. }
  destruct (create_candlestick_chart_inv _ _ _ _ Hne Hfig)
    as (open & high & low & close & volume & colors & _ & _ & _ & _ & _
        & _ & ->).
  cbn [fmap list_fmap trace_name]. do 2 f_equal.
  rewrite fmap_app. f_equal.
  apply (overlay_names df' (λ w, w ≤ Z.of_nat (length qs))).
  intros w Hw.
  assert (0 < w) as Hw0 by (by apply (proj1 (Forall_forall _ _) Hpos)).
  destruct (Hcols w Hw Hw0) as (col & Hcol & Hget).
  rewrite Hn in Hcol. by apply (ma_overlay_after df' qs w col).
Qed.

End chart.

Section chart_examples.

(** The examples are computed with [exact_mean]. *)
#[local] Existing Instance exact_mean.

Lemma chart_legend_after_averages_witness :
  trace_name <$> traces fig_ohlcv
  = "Price" :: "Close price"
    :: (sma_name <$> filter (λ w, w ≤ Z.of_nat 3) [2; 5]) ++ ["Volume"].
Proof.
  apply (chart_legend_after_averages float_ge df_ohlcv df_ohlcv_sma
           [Qc_of_Z 10; Qc_of_Z 20; Qc_of_Z 60] [2; 5] "AAA" fig_ohlcv).
  - reflexivity.
  - simpl. lia.
  - reflexivity.
  - repeat constructor.
  - reflexivity.
  - reflexivity.
Defined.

End chart_examples.

Lemma chart_needs_price_columns_witness :
  df_empty df_no_low = false ∧
  (∀ c, c ∈ price_columns → df_get df_no_low c = None →
        create_candlestick_chart float_ge df_no_low "AAA" [10]
        = Raise KeyError) ∧
  (∀ fig, create_candlestick_chart float_ge df_no_low "AAA" [10] = Ok fig →
          (∀ c, c ∈ "Volume" :: price_columns →
                is_Some (df_get df_no_low c)) ∧
          ∃ close, df_get df_no_low "Close" = Some close ∧
                   Scatter (index df_no_low) close "Close price" "#e5e7eb"
                   ∈ traces fig).
Proof.
  split; [reflexivity|].
  apply (chart_needs_price_columns float_ge df_no_low "AAA" [10]).
  reflexivity.
Defined.

